(** * genspn.distributions: conjugate updates, sampling and log-densities

    A shallow embedding of [src/genspn/distributions.py].

    Numbers.  A float array is a list of real numbers: the arithmetic of
    the module ([+], [*], [/], [**], [exp], [log]) is read as exact
    arithmetic over [R], so rounding, overflow, infinities and NaN are not
    part of this model.  An integer array is a list of [Z]; the int32
    counters it holds only ever count the rows of one batch.

    Shapes.  A rank-1 array is a list; a rank-2 array carries its number
    of columns next to its rows, so that an array with no row still has a
    width (as [x.shape[1]] does).  Elementwise operations follow the
    broadcasting rule of the array library: two axes are compatible when
    they are equal or one of them is 1, and the operation fails otherwise.

    Failure.  An operation that the array library rejects, and a call
    for which the dispatcher finds no method, return [None] in the
    [option] monad. *)

From Stdlib Require Import Reals List ZArith Lia Lra Bool Permutation.
From ExtLib Require Import Structures.Monad Data.Monads.OptionMonad.
Import ListNotations.
Import MonadNotation.
Local Open Scope monad_scope.
Local Open Scope R_scope.

(** ** Array primitives *)

Module Jnp.

Abbreviation vec := (list R).

(** A rank-2 array, [shape = (length rows, ncols)]. *)
Record array2 (A : Type) := mkArray2 { ncols : nat; rows : list (list A) }.
Arguments mkArray2 {A} _ _.
Arguments ncols {A} _.
Arguments rows {A} _.

Definition wf2 {A} (x : array2 A) : Prop :=
  Forall (fun r => length r = ncols x) (rows x).

Fixpoint map2 {A B C} (f : A -> B -> C) (u : list A) (v : list B) : list C :=
  match u, v with
  | x :: u', y :: v' => f x y :: map2 f u' v'
  | _, _ => []
  end.

(** The broadcast of two axis lengths. *)
Definition broadcast_shape (n k : nat) : option nat :=
  if Nat.eqb n k then Some n
  else if Nat.eqb n 1 then Some k
  else if Nat.eqb k 1 then Some n
  else None.

(** [broadcast_to] along one axis: an axis of length 1 is repeated. *)
Definition expand {A} (n : nat) (u : list A) : list A :=
  match u with
  | [x] => repeat x n
  | _ => u
  end.

(** A binary elementwise operation on rank-1 arrays. *)
Definition ew2 {A B C} (f : A -> B -> C) (u : list A) (v : list B)
  : option (list C) :=
  n <- broadcast_shape (length u) (length v) ;;
  ret (map2 f (expand n u) (expand n v)).

(** A binary elementwise operation on rank-2 arrays. *)
Definition ew2_2d {A B C} (f : A -> B -> C) (x : array2 A) (y : array2 B)
  : option (array2 C) :=
  r <- broadcast_shape (length (rows x)) (length (rows y)) ;;
  c <- broadcast_shape (ncols x) (ncols y) ;;
  ret (mkArray2 c
         (map2 (fun u v => map2 f (expand c u) (expand c v))
               (expand r (rows x)) (expand r (rows y)))).

Definition add : vec -> vec -> option vec := ew2 Rplus.
Definition sub : vec -> vec -> option vec := ew2 Rminus.
Definition mul : vec -> vec -> option vec := ew2 Rmult.
Definition div : vec -> vec -> option vec := ew2 Rdiv.

(** [v ** 2] *)
Definition square (v : vec) : vec := map (fun x => x ^ 2) v.

Definition zeros (n : nat) : vec := repeat 0 n.

(** [jnp.sum(x, axis=0)] of a rank-2 array: the column sums. *)
Definition sum_axis0 (x : array2 R) : vec :=
  fold_left (map2 Rplus) (rows x) (zeros (ncols x)).

(** [jnp.sum] of a rank-1 array. *)
Definition sum (v : vec) : R := fold_left Rplus v 0.

(** [x ** 2] on a rank-2 array. *)
Definition square2 (x : array2 R) : array2 R :=
  mkArray2 (ncols x) (map square (rows x)).

End Jnp.

Import Jnp.

(** ** Distribution parameter types *)

Record NormalInverseGamma (A : Type) :=
  mkNormalInverseGamma { nig_m : A; nig_l : A; nig_a : A; nig_b : A }.
Arguments mkNormalInverseGamma {A} _ _ _ _.
Arguments nig_m {A} _.
Arguments nig_l {A} _.
Arguments nig_a {A} _.
Arguments nig_b {A} _.

(** ** Posterior of a NormalInverseGamma *)

(** [posterior(dist, N, sum_x, sum_x_sq)], source lines 121-128. *)
Definition posterior_stats (dist : NormalInverseGamma vec) (N : Z)
    (sum_x sum_x_sq : vec) : option (NormalInverseGamma vec) :=
  let l := map (fun li => li + IZR N) (nig_l dist) in
  lm <- mul (nig_l dist) (nig_m dist) ;;
  num <- add lm sum_x ;;
  m <- div num l ;;
  let a := map (fun ai => ai + IZR N / 2) (nig_a dist) in
  lm2 <- mul (nig_l dist) (square (nig_m dist)) ;;
  s1 <- add sum_x_sq lm2 ;;
  l'm'2 <- mul l (square m) ;;
  s2 <- sub s1 l'm'2 ;;
  b <- add (nig_b dist) (map (fun t => 0.5 * t) s2) ;;
  ret (mkNormalInverseGamma m l a b).

(** The value handed to [posterior] as a count: a Python [int], or an
    integer array of rank 0. *)
Inductive count_arg :=
| PyInt (n : Z)
| IntArray0 (n : Z).

(** The dispatch of a call [posterior(dist, N, sum_x, sum_x_sq)] whose
    first argument is a NormalInverseGamma and whose last two are float
    arrays of rank 1.  Two methods take a NormalInverseGamma and three
    more arguments: the one of line 106 wants a float array of rank 2 in
    second place, the one of line 122 an [Int[Array, ""]].  A rank-0
    integer array selects the latter; a Python [int] is an instance of
    neither annotation, and the lookup fails. *)
Definition posterior_dispatch (dist : NormalInverseGamma vec) (N : count_arg)
    (sum_x sum_x_sq : vec) : option (NormalInverseGamma vec) :=
  match N with
  | IntArray0 n => posterior_stats dist n sum_x sum_x_sq
  | PyInt _ => None
  end.

(** [posterior(dist, x)], source lines 113-119: [N = x.shape[0]] is a
    Python [int], and line 119 calls [posterior] again with it. *)
Definition posterior_batch (dist : NormalInverseGamma vec) (x : array2 R)
    : option (NormalInverseGamma vec) :=
  let N := PyInt (Z.of_nat (length (rows x))) in
  let sum_x := sum_axis0 x in
  let sum_x_sq := sum_axis0 (square2 x) in
  posterior_dispatch dist N sum_x sum_x_sq.

(** ** Indexing and grouped reductions *)

Module Ops.

(** [jnp.arange(n)] *)
Definition arange (n : nat) : list Z := map Z.of_nat (seq 0 n).

(** Integer indexing [arr[i]] for retrieval.  A negative index counts
    from the end of the axis and the result is then clamped into the
    axis: an out-of-bounds retrieval raises nothing.  Only an empty axis
    has no element to return. *)
Definition normalize_index (n : nat) (i : Z) : Z :=
  if (i <? 0)%Z then (i + Z.of_nat n)%Z else i.

Definition clamp_index (n : nat) (i : Z) : nat :=
  Z.to_nat (Z.min (Z.max 0 i) (Z.of_nat n - 1)).

Definition getitem {A} (arr : list A) (i : Z) : option A :=
  nth_error arr (clamp_index (length arr) (normalize_index (length arr) i)).

(** The slice [v[:K]]. *)
Definition slice_to {A} (K : Z) (v : list A) : list A :=
  if (K <? 0)%Z then firstn (length v - Z.to_nat (- K)) v
  else firstn (Z.to_nat K) v.

(** [arr.at[0].set(v)]: an update outside the axis is dropped. *)
Definition set_at0 {A} (arr : list A) (v : A) : list A :=
  match arr with
  | [] => []
  | _ :: r => v :: r
  end.

Fixpoint traverse {A B} (f : A -> option B) (xs : list A) : option (list B) :=
  match xs with
  | [] => Some []
  | x :: r =>
      match f x, traverse f r with
      | Some y, Some ys => Some (y :: ys)
      | _, _ => None
      end
  end.

(** [acc.at[i].add(x)] as the grouped reduction uses it: an id outside
    [0, length acc) is dropped. *)
Fixpoint add_at {A} (addA : A -> A -> A) (acc : list A) (i : nat) (x : A)
  : list A :=
  match acc, i with
  | [], _ => []
  | y :: r, O => addA y x :: r
  | y :: r, S j => y :: add_at addA r j x
  end.

Definition scatter_add {A} (addA : A -> A -> A) (acc : list A)
    (p : A * Z) : list A :=
  if (snd p <? 0)%Z then acc else add_at addA acc (Z.to_nat (snd p)) (fst p).

(** [jax.ops.segment_sum(data, segment_ids, num_segments)] with a known
    number of segments. *)
Definition segment_sum {A} (zero : A) (addA : A -> A -> A)
    (data : list A) (segment_ids : list Z) (num_segments : nat)
  : option (list A) :=
  if Nat.eqb (length data) (length segment_ids)
  then Some (fold_left (scatter_add addA) (combine data segment_ids)
               (repeat zero num_segments))
  else None.

(** The [num_segments] argument: [max_clusters] when given (a negative
    count is rejected), else [max(segment_ids) + 1]. *)
Definition num_segments_of (segment_ids : list Z) (max_clusters : option Z)
  : option nat :=
  match max_clusters with
  | Some k => if (k <? 0)%Z then None else Some (Z.to_nat k)
  | None =>
      match segment_ids with
      | [] => None
      | i :: r =>
          let top := fold_left Z.max r i in
          if (top + 1 <? 0)%Z then None else Some (Z.to_nat (top + 1))
      end
  end.

(** [jax.vmap] of a binary function over the leading axes of both
    arguments, which must agree. *)
Definition vmap2 {A B C} (f : A -> B -> C) (u : list A) (v : list B)
  : option (list C) :=
  if Nat.eqb (length u) (length v) then Some (map2 f u v) else None.

(** [jax.nn.one_hot(v, num_classes)]: position [j] holds [v == j]. *)
Definition one_hot (num_classes : nat) (v : Z) : list Z :=
  map (fun j => if (v =? j)%Z then 1%Z else 0%Z) (arange num_classes).

End Ops.

Import Ops.

Record Dirichlet (A : Type) := mkDirichlet { dirichlet_alpha : A }.
Arguments mkDirichlet {A} _.
Arguments dirichlet_alpha {A} _.

Record Normal (A : Type) := mkNormal { normal_mu : A; normal_std : A }.
Arguments mkNormal {A} _ _.
Arguments normal_mu {A} _.
Arguments normal_std {A} _.

(** [logprobs] is assumed normalized and padded. *)
Record Categorical (A : Type) := mkCategorical { cat_logprobs : A }.
Arguments mkCategorical {A} _.
Arguments cat_logprobs {A} _.

Record Mixed (A B : Type) :=
  mkMixed { mixed_normal : Normal A; mixed_categorical : Categorical B }.
Arguments mkMixed {A B} _ _.
Arguments mixed_normal {A B} _.
Arguments mixed_categorical {A B} _.

Record MixedConjugate (A B : Type) :=
  mkMixedConjugate { mc_nig : NormalInverseGamma A; mc_dirichlet : Dirichlet B }.
Arguments mkMixedConjugate {A B} _ _.
Arguments mc_nig {A B} _.
Arguments mc_dirichlet {A B} _.

Record GEM := mkGEM { gem_alpha : R; gem_d : R }.

(** ** Posterior per cluster *)

(** [jax.vmap(posterior, in_axes=(None, 0, 0, 0))(dist, N, sum_x, sum_x_sq)]:
    the three mapped arguments share their leading axis, and the result
    stacks every field along it. *)
Definition vmap_posterior_stats (dist : NormalInverseGamma vec)
    (N : list Z) (sum_x sum_x_sq : list vec)
    : option (NormalInverseGamma (list vec)) :=
  if Nat.eqb (length N) (length sum_x) && Nat.eqb (length N) (length sum_x_sq)
  then
    rs <- traverse (fun t => posterior_stats dist (fst t) (fst (snd t)) (snd (snd t)))
            (combine N (combine sum_x sum_x_sq)) ;;
    ret (mkNormalInverseGamma (map nig_m rs) (map nig_l rs)
           (map nig_a rs) (map nig_b rs))
  else None.

(** [posterior(dist, x, c, max_clusters)] for a NormalInverseGamma, source
    lines 105-111. *)
Definition posterior_clusters (dist : NormalInverseGamma vec) (x : array2 R)
    (c : list Z) (max_clusters : option Z)
    : option (NormalInverseGamma (list vec)) :=
  k <- num_segments_of c max_clusters ;;
  N <- segment_sum 0%Z Z.add (repeat 1%Z (length (rows x))) c k ;;
  sum_x <- segment_sum (zeros (ncols x)) (map2 Rplus) (rows x) c k ;;
  sum_x_sq <- segment_sum (zeros (ncols x)) (map2 Rplus)
                (rows (square2 x)) c k ;;
  vmap_posterior_stats dist N sum_x sum_x_sq.

(** ** Posterior of a Dirichlet *)

(** [posterior(dist, counts)], source lines 136-138. *)
Definition posterior_counts (dist : Dirichlet (array2 R)) (counts : array2 Z)
    : option (Dirichlet (array2 R)) :=
  alpha <- ew2_2d (fun al n => al + IZR n) (dirichlet_alpha dist) counts ;;
  ret (mkDirichlet alpha).

(** Addition of two integer arrays of one shape, and the zero array. *)
Definition add_counts (u v : array2 Z) : array2 Z :=
  mkArray2 (ncols u) (map2 (map2 Z.add) (rows u) (rows v)).

Definition zero_counts (n_dim k : nat) : array2 Z :=
  mkArray2 k (repeat (repeat 0%Z k) n_dim).

(** One observation row, one-hot encoded: shape [(n_dim, num_classes)]. *)
Definition one_hot_row (num_classes : nat) (row : list Z) : array2 Z :=
  mkArray2 num_classes (map (one_hot num_classes) row).

(** [posterior(dist, x, c, max_clusters)] for a Dirichlet, source lines
    130-134. *)
Definition posterior_dirichlet_clusters (dist : Dirichlet (array2 R))
    (x : array2 Z) (c : list Z) (max_clusters : option Z)
    : option (Dirichlet (list (array2 R))) :=
  let num_classes := ncols (dirichlet_alpha dist) in
  let one_hot_x := map (one_hot_row num_classes) (rows x) in
  k <- num_segments_of c max_clusters ;;
  counts <- segment_sum (zero_counts (ncols x) num_classes) add_counts
              one_hot_x c k ;;
  rs <- traverse (posterior_counts dist) counts ;;
  ret (mkDirichlet (map dirichlet_alpha rs)).

(** ** Posterior of a MixedConjugate, source lines 91-103 *)


Definition posterior_mixed_clusters (dist : MixedConjugate vec (array2 R))
    (x : array2 R * array2 Z) (c : list Z) (max_clusters : option Z)
    : option (MixedConjugate (list vec) (list (array2 R))) :=
  nig <- posterior_clusters (mc_nig dist) (fst x) c max_clusters ;;
  dirichlet <- posterior_dirichlet_clusters (mc_dirichlet dist) (snd x) c
                 max_clusters ;;
  ret (mkMixedConjugate nig dirichlet).

(** ** Indexing a batched distribution *)

(** [Dirichlet.__getitem__], source lines 17-18. *)
Definition Dirichlet_getitem {A} (self : Dirichlet (list A)) (key : Z)
    : option (Dirichlet A) :=
  alpha <- getitem (dirichlet_alpha self) key ;;
  ret (mkDirichlet alpha).

(** [Normal.__getitem__], source lines 24-25. *)
Definition Normal_getitem {A} (self : Normal (list A)) (key : Z)
    : option (Normal A) :=
  mu <- getitem (normal_mu self) key ;;
  std <- getitem (normal_std self) key ;;
  ret (mkNormal mu std).

(** [Categorical.__getitem__], source lines 30-31: the body reads
    [self.logprobs[0]]. *)
Definition Categorical_getitem {A} (self : Categorical (list A)) (key : Z)
    : option (Categorical A) :=
  logprobs <- getitem (cat_logprobs self) 0%Z ;;
  ret (mkCategorical logprobs).

(** [Mixed.__getitem__], source lines 37-38. *)
Definition Mixed_getitem {A B} (self : Mixed (list A) (list B)) (key : Z)
    : option (Mixed A B) :=
  normal <- Normal_getitem (mixed_normal self) key ;;
  categorical <- Categorical_getitem (mixed_categorical self) key ;;
  ret (mkMixed normal categorical).

(** ** Log-densities *)

(** [logpdf(dist: Normal, x)], source lines 140-142. *)
Definition logpdf_Normal (dist : Normal vec) (x : vec) : option R :=
  d <- sub x (normal_mu dist) ;;
  q <- div d (normal_std dist) ;;
  let head := map (fun s => - 0.5 * ln (2 * PI) - ln s) (normal_std dist) in
  t <- sub head (map (fun t => 0.5 * t) (square q)) ;;
  ret (sum t).

(** [logpdf(dist: Categorical, x)], source lines 144-146: the advanced
    index [logprobs[arange(n), x]] pairs row [i] with column [x_i]. *)
Definition logpdf_Categorical (dist : Categorical (array2 R)) (x : list Z)
    : option R :=
  picked <- traverse
              (fun ix => row <- getitem (rows (cat_logprobs dist)) (fst ix) ;;
                         getitem row (snd ix))
              (combine (arange (length x)) x) ;;
  ret (sum picked).

(** [logpdf(dist: Mixed, x)], source lines 148-150. *)
Definition logpdf_Mixed (dist : Mixed vec (array2 R)) (x : vec * list Z)
    : option R :=
  ln_normal <- logpdf_Normal (mixed_normal dist) (fst x) ;;
  ln_categorical <- logpdf_Categorical (mixed_categorical dist) (snd x) ;;
  ret (ln_normal + ln_categorical).

(** The union [F = Categorical | Normal | Mixed] of batched containers and
    the union [Datapoint]. *)
Inductive F :=
| FCategorical (dist : Categorical (list (array2 R)))
| FNormal (dist : Normal (list vec))
| FMixed (dist : Mixed (list vec) (list (array2 R))).

Inductive Datapoint :=
| DFloat (x : vec)
| DInt (x : list Z)
| DPair (x : vec * list Z).

(** [logpdf(dist: F, x: Datapoint, c)], source lines 159-162: index, then
    dispatch on the pair of types; a pair with no method is a lookup
    error. *)
Definition logpdf_F (dist : F) (x : Datapoint) (c : Z) : option R :=
  match dist, x with
  | FCategorical d, DInt xi => d' <- Categorical_getitem d c ;; logpdf_Categorical d' xi
  | FNormal d, DFloat xf => d' <- Normal_getitem d c ;; logpdf_Normal d' xf
  | FMixed d, DPair xp => d' <- Mixed_getitem d c ;; logpdf_Mixed d' xp
  | _, _ => None
  end.

Section StickBreaking.

(** [jax.scipy.stats.beta.logpdf(x, a, b)], a density of the numerical
    library. *)
Variable beta_logpdf : R -> R -> R -> R.

(** [logpdf(dist: GEM, pi, K)], source lines 152-157. *)
Definition logpdf_GEM (dist : GEM) (pi : vec) (K : Z) : option R :=
  let idx := arange (length pi) in
  betas <- traverse
             (fun i => p <- getitem pi i ;;
                       q <- getitem pi (i - 1)%Z ;;
                       ret (1 - p / q)) idx ;;
  pi0 <- getitem pi 0%Z ;;
  let betas := set_at0 betas pi0 in
  let b := map (fun i => gem_alpha dist + (1 + IZR i) * gem_d dist) idx in
  logprobs <- vmap2 (fun beta bi => beta_logpdf beta (1 - gem_d dist) bi)
                betas b ;;
  ret (sum (slice_to K logprobs)).

End StickBreaking.

(** ** Sampling *)

(** The primitive draws of the random-number library. *)
Inductive primitive := LogGammaDraw | NormalDraw | DirichletDraw.

(** The splittable random source: [jax.random.split] gives [keys[0]] and
    [keys[1]]; each draw is a function of the key it is handed, with the
    shape of its parameter. *)
Class RandomSource (Key : Type) := {
  split : Key -> Key * Key;
  loggamma : Key -> vec -> vec;
  normal : Key -> nat -> vec;
  dirichlet : Key -> array2 R -> array2 R;
  loggamma_shape : forall k a, length (loggamma k a) = length a;
  normal_shape : forall k n, length (normal k n) = n
}.

(** A sampler returns its value, if any, together with the list of the
    primitive draws it made and the key each one was handed. *)
Definition Sampler (Key A : Type) : Type := list (primitive * Key) * option A.

Definition draws {Key A} (s : Sampler Key A) : list (primitive * Key) := fst s.
Definition value {Key A} (s : Sampler Key A) : option A := snd s.

#[export] Instance Monad_Sampler (Key : Type) : Monad (Sampler Key) := {
  ret := fun _ x => ([], Some x);
  bind := fun _ _ s f =>
    match snd s with
    | Some x => (fst s ++ fst (f x), snd (f x))
    | None => (fst s, None)
    end
}.

Definition draw {Key A} (p : primitive) (k : Key) (v : A) : Sampler Key A :=
  ([(p, k)], Some v).

Definition lift {Key A} (o : option A) : Sampler Key A := ([], o).

Section Sampling.

Context {Key : Type} `{RandomSource Key}.

(** [sample(key, dist: Dirichlet)], source lines 65-68. *)
Definition sample_Dirichlet (key : Key) (dist : Dirichlet (array2 R))
    : Sampler Key (Categorical (array2 R)) :=
  probs <- draw DirichletDraw key (dirichlet key (dirichlet_alpha dist)) ;;
  ret (mkCategorical (mkArray2 (ncols probs) (map (map ln) (rows probs)))).

(** [sample(key, dist: NormalInverseGamma)], source lines 70-81. *)
Definition sample_NormalInverseGamma (key : Key)
    (dist : NormalInverseGamma vec) : Sampler Key (Normal vec) :=
  let keys := split key in
  g <- draw LogGammaDraw key (loggamma key (nig_a dist)) ;;
  log_lambda <- lift (sub g (map ln (nig_b dist))) ;;
  log_sigma <- lift (sub (map Ropp (map ln (nig_l dist))) log_lambda) ;;
  let std := map exp (map (fun t => t / 2) log_sigma) in
  z <- draw NormalDraw (snd keys)
         (normal (snd keys) (length (nig_m dist))) ;;
  zs <- lift (mul z std) ;;
  mu <- lift (add (nig_m dist) zs) ;;
  ret (mkNormal mu (map exp (map (fun t => - t / 2) log_lambda))).

(** [sample(key, dist: MixedConjugate)], source lines 83-89. *)
Definition sample_MixedConjugate (key : Key)
    (dist : MixedConjugate vec (array2 R))
    : Sampler Key (Mixed vec (array2 R)) :=
  let keys := split key in
  normal <- sample_NormalInverseGamma (fst keys) (mc_nig dist) ;;
  categorical <- sample_Dirichlet (snd keys) (mc_dirichlet dist) ;;
  ret (mkMixed normal categorical).

End Sampling.

(** ** A concrete random source

    Keys are the paths of a split tree, so that a key, its first half and
    its second half are three different values; the draws are fixed
    arrays of the right shape. *)

Inductive PathKey :=
| Seed (n : nat)
| Half0 (k : PathKey)
| Half1 (k : PathKey).

Definition fixed_dirichlet (alpha : array2 R) : array2 R :=
  mkArray2 (ncols alpha)
    (map (map (fun _ => / INR (ncols alpha))) (rows alpha)).

#[export, refine] Instance PathSource : RandomSource PathKey := {
  split := fun k => (Half0 k, Half1 k);
  loggamma := fun _ a => map (fun _ => 0) a;
  normal := fun _ n => repeat 1 n;
  dirichlet := fun _ alpha => fixed_dirichlet alpha
}.
Proof.
  - intros _ a. apply length_map.
  - intros _ n. apply repeat_length.
Defined.

(** ** Statistics of a batch, as the specification words them *)

(** [Σx] and [Σx²] of one feature dimension [d]. *)
Definition col_sum (x : array2 R) (d : nat) : R :=
  fold_right Rplus 0 (map (fun r => nth d r 0) (rows x)).

Definition col_sum_sq (x : array2 R) (d : nat) : R :=
  fold_right Rplus 0 (map (fun r => nth d r 0 ^ 2) (rows x)).

(** The closed-form conjugate update of one dimension. *)
Definition closed_l (l N : R) : R := l + N.
Definition closed_m (l m N sx : R) : R := (l * m + sx) / closed_l l N.
Definition closed_a (a N : R) : R := a + N / 2.
Definition closed_b (l m b N sx sxx : R) : R :=
  b + 1 / 2 * (sxx + l * m ^ 2 - closed_l l N * closed_m l m N sx ^ 2).

(** The statistics-form update on the count, the sums and the sums of
    squares of a batch, the count being handed over as an array. *)
Definition update_on_batch (dist : NormalInverseGamma vec) (x : array2 R)
    : option (NormalInverseGamma vec) :=
  posterior_dispatch dist (IntArray0 (Z.of_nat (length (rows x))))
    (sum_axis0 x) (sum_axis0 (square2 x)).

(** All four parameter arrays of a prior have dimension [D]. *)
Definition nig_dim (dist : NormalInverseGamma vec) (D : nat) : Prop :=
  length (nig_m dist) = D /\ length (nig_l dist) = D /\
  length (nig_a dist) = D /\ length (nig_b dist) = D.

(** ** Shapes, groups and sums, as the specification words them *)

(** Shape [(n, k)]: [n] rows of [k] entries. *)
Definition has_shape {A} (x : array2 A) (n k : nat) : Prop :=
  length (rows x) = n /\ ncols x = k /\ wf2 x.

Definition positive (v : vec) : Prop := Forall (fun t => 0 < t) v.

Definition in_range (K : nat) (c : list Z) : Prop :=
  Forall (fun i => (0 <= i < Z.of_nat K)%Z) c.

Definition weights_in_unit (pi : vec) : Prop := Forall (fun p => 0 < p <= 1) pi.

(** The observations whose label is [k], in batch order. *)
Definition members {A} (k : nat) (data : list A) (c : list Z) : list A :=
  map fst (filter (fun p => (snd p =? Z.of_nat k)%Z) (combine data c)).

(** The sub-batch of the observations labelled [k]. *)
Definition group {A} (x : array2 A) (c : list Z) (k : nat) : array2 A :=
  mkArray2 (ncols x) (members k (rows x) c).

(** Entry [k] along the leading axis of a stacked NormalInverseGamma. *)
Definition nig_entry (post : NormalInverseGamma (list vec)) (k : nat)
    : NormalInverseGamma vec :=
  mkNormalInverseGamma (nth k (nig_m post) []) (nth k (nig_l post) [])
    (nth k (nig_a post) []) (nth k (nig_b post) []).

(** The leading axis of every field has length [K]. *)
Definition nig_leading (post : NormalInverseGamma (list vec)) (K : nat) : Prop :=
  length (nig_m post) = K /\ length (nig_l post) = K /\
  length (nig_a post) = K /\ length (nig_b post) = K.

(** How many observations of a batch have category [j] in dimension [d]. *)
Definition cat_count (g : array2 Z) (d j : nat) : Z :=
  Z.of_nat (length (filter (fun row => (nth d row (-1) =? Z.of_nat j)%Z) (rows g))).

(** The category counts of a batch: shape [(n_dim, num_classes)]. *)
Definition group_counts (num_classes : nat) (g : array2 Z) : array2 Z :=
  mkArray2 num_classes
    (map (fun d => map (cat_count g d) (seq 0 num_classes)) (seq 0 (ncols g))).

(** The sum of a list of terms, as the specification writes [Σ]. *)
Definition big_sum (v : list R) : R := fold_right Rplus 0 v.

(** [logprobs[i, j]] *)
Definition entry (logprobs : array2 R) (i j : nat) : R :=
  nth j (nth i (rows logprobs) []) 0.

(** The stick-breaking fraction [β_i] recovered from the weights. *)
Definition stick_fraction (pi : vec) (i : nat) : R :=
  match i with
  | O => nth 0 pi 0
  | S j => 1 - nth i pi 0 / nth j pi 0
  end.

(** ** Concrete inputs *)

(** The prior and the batch of the end-to-end scenario: one dimension,
    [m = 0], [l = a = b = 1], observations [1.0] and [3.0]. *)
Definition unit_prior : NormalInverseGamma vec :=
  mkNormalInverseGamma [0] [1] [1] [1].

(** A prior with [l = 2], where [log l] is not zero. *)
Definition prior_l2 : NormalInverseGamma vec :=
  mkNormalInverseGamma [0] [2] [1] [1].

Definition batch_1_3 : array2 R := mkArray2 1 [[1]; [3]].

(** Three observations in one dimension, labelled 0, 2, 0: cluster 1 of
    three is empty. *)
Definition batch_1_3_5 : array2 R := mkArray2 1 [[1]; [3]; [5]].

Definition labels_0_2_0 : list Z := [0; 2; 0]%Z.

(** The discrete observations of the examples: three rows, two
    dimensions. *)
Definition cats_3_2 : array2 Z := mkArray2 2 [[0; 1]; [2; 1]; [0; 0]]%Z.

(** The prior of the examples: two dimensions, three categories. *)
Definition alpha_2_3 : Dirichlet (array2 R) :=
  mkDirichlet (mkArray2 3 [[1; 2; 3]; [1 / 2; 1; 1]]).

Definition counts_2_3 : array2 Z := mkArray2 3 [[0; 2; 1]; [3; 0; 0]]%Z.

(** Two clusters, one dimension, two categories. *)
Definition two_clusters : Categorical (list (array2 R)) :=
  mkCategorical [mkArray2 2 [[-1; -2]]; mkArray2 2 [[-3; -4]]].

(** One dimension, two categories. *)
Definition one_dim_cat : Categorical (array2 R) :=
  mkCategorical (mkArray2 2 [[-1; -2]]).

(** The weights of the boundary case and its prior. *)
Definition gem_1_0 : GEM := mkGEM 1 0.

(** The log-kernel of a Beta density, a stand-in for the library density
    in the examples. *)
Definition beta_log_kernel (x a b : R) : R :=
  (a - 1) * ln x + (b - 1) * ln (1 - x).

(** ** Density of sampled Normal parameters under their prior *)

(** A ternary elementwise operation: the three arrays are broadcast
    together. *)
Definition ew3 {A B C E} (f : A -> B -> C -> E)
    (u : list A) (v : list B) (w : list C) : option (list E) :=
  uv <- ew2 pair u v ;;
  ew2 (fun ab c => f (fst ab) (snd ab) c) uv w.

Section ConjugateDensities.

(** [jax.scipy.stats.gamma.logpdf(x, a, scale=s)] and
    [jax.scipy.stats.norm.logpdf(x, loc=m, scale=s)], densities of the
    numerical library, applied elementwise. *)
Variable gamma_logpdf : R -> R -> R -> R.
Variable norm_logpdf : R -> R -> R -> R.

(** [logpdf(dist: NormalInverseGamma, x: Normal)], source lines 168-172. *)
Definition logpdf_NormalInverseGamma (dist : NormalInverseGamma vec)
    (x : Normal vec) : option R :=
  std_logpdf <- ew3 gamma_logpdf (map (fun s => / (s ^ 2)) (normal_std x))
                  (nig_a dist) (map (fun b => 1 / b) (nig_b dist)) ;;
  scale <- div (normal_std x) (map sqrt (nig_l dist)) ;;
  mu_logpdf <- ew3 norm_logpdf (normal_mu x) (nig_m dist) scale ;;
  t <- add mu_logpdf std_logpdf ;;
  ret (sum t).

End ConjugateDensities.

(** ** Further vocabulary for the properties *)

(** The data-model invariant of a NormalInverseGamma. *)
Definition valid_nig (dist : NormalInverseGamma vec) : Prop :=
  positive (nig_l dist) /\ positive (nig_a dist) /\ positive (nig_b dist).

(** The observation-label pairs whose label lies in [[0, K)]. *)
Definition labelled_in_range {A} (K : nat) (x : array2 A) (c : list Z)
    : list (list A * Z) :=
  filter (fun p => (0 <=? snd p)%Z && (snd p <? Z.of_nat K)%Z)
         (combine (rows x) c).

(** How many observations of a batch have, in dimension [d], a category
    inside [[0, num_classes)]. *)
Definition observed_in_range (num_classes : nat) (g : array2 Z) (d : nat) : nat :=
  length (filter (fun row => ((0 <=? nth d row (-1))%Z
                              && (nth d row (-1) <? Z.of_nat num_classes)%Z)%bool)
                 (rows g)).

(** The Gaussian log-density of one coordinate. *)
Definition normal_term (mu std x : R) : R :=
  - (1 / 2) * ln (2 * PI) - ln std - 1 / 2 * ((x - mu) / std) ^ 2.

(** * Properties *)

(** ** Lists and elementwise operations *)

Lemma bind_some {A B} (x : A) (f : A -> option B) : bind (Some x) f = f x.
Proof. reflexivity. Qed.

Lemma length_map2 {A B C} (f : A -> B -> C) u v :
  length u = length v -> length (map2 f u v) = length u.
Proof.
  revert v. induction u as [|x u IH]; intros [|y v]; simpl; intros E;
    try discriminate; auto.
Qed.

Lemma nth_map2 {A B C} (f : A -> B -> C) u v i da db dc :
  length u = length v -> (i < length u)%nat ->
  nth i (map2 f u v) dc = f (nth i u da) (nth i v db).
Proof.
  revert v i. induction u as [|x u IH]; intros [|y v] i; simpl; intros E Hi;
    try discriminate; try lia.
  destruct i; auto. apply IH; lia.
Qed.

Lemma ew2_same_length {A B C} (f : A -> B -> C) u v :
  length u = length v -> ew2 f u v = Some (map2 f u v).
Proof.
  intros E. unfold ew2, broadcast_shape. rewrite E, Nat.eqb_refl. simpl.
  f_equal. f_equal.
  - destruct u as [|x [|]]; auto. destruct v as [|y [|]]; try discriminate. reflexivity.
  - destruct v as [|x [|]]; auto.
Qed.

Lemma nth_map_in {A B} (f : A -> B) u i da db :
  (i < length u)%nat -> nth i (map f u) db = f (nth i u da).
Proof.
  revert i. induction u as [|x u IH]; intros i; simpl; intros Hi; try lia.
  destruct i; auto. apply IH; lia.
Qed.

Ltac len :=
  unfold square, zeros in *;
  repeat first [ rewrite length_map | rewrite repeat_length
               | rewrite length_map2 by len ];
  try congruence; try lia.

Ltac run_ew2 :=
  unfold add, sub, mul, div;
  repeat (rewrite ew2_same_length by len; rewrite bind_some).

(** Read coordinate [d] through maps and zips of arrays of real numbers. *)
Ltac nth_in :=
  unfold square;
  repeat first [ rewrite (nth_map2 _ _ _ _ 0 0 0) by len
               | rewrite (nth_map_in _ _ _ 0 0) by len ].

(** The statistics-form update succeeds on arrays of one dimension, keeps
    that dimension, and is the closed form in every coordinate. *)
Lemma posterior_stats_spec dist N sum_x sum_x_sq D :
  nig_dim dist D -> length sum_x = D -> length sum_x_sq = D ->
  exists post,
    posterior_stats dist N sum_x sum_x_sq = Some post /\
    nig_dim post D /\
    forall d, (d < D)%nat ->
      let l := nth d (nig_l dist) 0 in
      let m := nth d (nig_m dist) 0 in
      nth d (nig_l post) 0 = closed_l l (IZR N) /\
      nth d (nig_m post) 0 = closed_m l m (IZR N) (nth d sum_x 0) /\
      nth d (nig_a post) 0 = closed_a (nth d (nig_a dist) 0) (IZR N) /\
      nth d (nig_b post) 0 =
        closed_b l m (nth d (nig_b dist) 0) (IZR N)
          (nth d sum_x 0) (nth d sum_x_sq 0).
Proof.
  intros (Hm & Hl & Ha & Hb) Hx Hxx.
  unfold posterior_stats. run_ew2.
  eexists. split; [reflexivity|]. split.
  - unfold nig_dim; simpl. repeat split; len.
  - intros d Hd. simpl. nth_in.
    unfold closed_b, closed_m, closed_a, closed_l.
    repeat split; try reflexivity.
    replace 0.5 with (1 / 2) by lra. reflexivity.
Qed.

(** Two parameter records of one dimension that agree in every coordinate
    are equal. *)
Lemma nig_ext (p q : NormalInverseGamma vec) D :
  nig_dim p D -> nig_dim q D ->
  (forall d, (d < D)%nat ->
     nth d (nig_l p) 0 = nth d (nig_l q) 0 /\
     nth d (nig_m p) 0 = nth d (nig_m q) 0 /\
     nth d (nig_a p) 0 = nth d (nig_a q) 0 /\
     nth d (nig_b p) 0 = nth d (nig_b q) 0) ->
  p = q.
Proof.
  destruct p as [pm pl pa pb], q as [qm ql qa qb]; unfold nig_dim; simpl.
  intros (Hm & Hl & Ha & Hb) (Hm' & Hl' & Ha' & Hb') E.
  f_equal; apply (nth_ext _ _ 0 0); try congruence; intros d Hd;
    apply E; congruence.
Qed.

(** ** Column sums *)

Lemma fold_columns_nth (rs : list vec) (acc : vec) D d :
  Forall (fun r => length r = D) rs -> length acc = D -> (d < D)%nat ->
  length (fold_left (map2 Rplus) rs acc) = D /\
  nth d (fold_left (map2 Rplus) rs acc) 0 =
    nth d acc 0 + fold_right Rplus 0 (map (fun r => nth d r 0) rs).
Proof.
  intros Hrs. revert acc. induction Hrs as [|r rs Hr _ IH]; intros acc Hacc Hd; simpl.
  - split; [assumption | lra].
  - destruct (IH (map2 Rplus acc r)) as [L E]; [len | assumption |].
    split; [assumption|]. rewrite E. nth_in. lra.
Qed.

Lemma fold_columns_length (rs : list vec) (acc : vec) D :
  Forall (fun r => length r = D) rs -> length acc = D ->
  length (fold_left (map2 Rplus) rs acc) = D.
Proof.
  intros Hrs. revert acc. induction Hrs as [|r rs Hr _ IH]; intros acc Hacc; simpl.
  - assumption.
  - apply IH. len.
Qed.

Lemma nth_zeros d n : nth d (zeros n) 0 = 0.
Proof.
  unfold zeros. revert d. induction n; intros [|d]; simpl; auto.
Qed.

Lemma sum_axis0_length x : wf2 x -> length (sum_axis0 x) = ncols x.
Proof.
  intros W. apply fold_columns_length; [exact W | len].
Qed.

Lemma sum_axis0_nth x d :
  wf2 x -> (d < ncols x)%nat -> nth d (sum_axis0 x) 0 = col_sum x d.
Proof.
  intros W Hd. unfold sum_axis0, col_sum.
  destruct (fold_columns_nth (rows x) (zeros (ncols x)) (ncols x) d W) as [_ E];
    [len | assumption |].
  rewrite E, nth_zeros. lra.
Qed.

Lemma wf2_square2 x : wf2 x -> wf2 (square2 x).
Proof.
  unfold wf2, square2; simpl. intros W. apply Forall_map.
  eapply Forall_impl; [|exact W]. simpl. intros r Hr. len.
Qed.

Lemma col_sum_square2 x d :
  wf2 x -> (d < ncols x)%nat -> col_sum (square2 x) d = col_sum_sq x d.
Proof.
  unfold col_sum, col_sum_sq, square2, wf2; simpl. intros W Hd.
  induction W as [|r rs Hr _ IH]; simpl; [reflexivity|].
  rewrite IH. f_equal. nth_in. reflexivity.
Qed.

(** The column sums of a batch, collected into arrays. *)
Lemma sum_axis0_cols x :
  wf2 x -> sum_axis0 x = map (col_sum x) (seq 0 (ncols x)).
Proof.
  intros W. apply (nth_ext _ _ 0 0).
  - rewrite sum_axis0_length by assumption. now rewrite length_map, length_seq.
  - intros d Hd. rewrite sum_axis0_length in Hd by assumption.
    rewrite sum_axis0_nth by assumption.
    rewrite (nth_map_in _ _ _ 0%nat) by (rewrite length_seq; lia).
    now rewrite seq_nth.
Qed.

Lemma sum_axis0_square2_cols x :
  wf2 x -> sum_axis0 (square2 x) = map (col_sum_sq x) (seq 0 (ncols x)).
Proof.
  intros W. rewrite sum_axis0_cols by (apply wf2_square2; assumption).
  simpl. apply map_ext_in. intros d Hd. apply in_seq in Hd.
  apply col_sum_square2; [assumption | lia].
Qed.

(** ** Posterior of a NormalInverseGamma from a batch *)

(** On a prior of dimension [D] and a batch of shape [[N, D]], the
    statistics-form update on the batch's [N], [Σx], [Σx²] is the closed
    form in every dimension: [l' = l + N], [m' = (l·m + Σx)/l'],
    [a' = a + N/2], [b' = b + ½(Σx² + l·m² − l'·m'²)]. *)
Lemma update_on_batch_closed_form dist x D :
  nig_dim dist D -> ncols x = D -> wf2 x ->
  exists post,
    update_on_batch dist x = Some post /\
    posterior_stats dist (Z.of_nat (length (rows x)))
      (map (col_sum x) (seq 0 D)) (map (col_sum_sq x) (seq 0 D)) = Some post /\
    nig_dim post D /\
    forall d, (d < D)%nat ->
      let N := INR (length (rows x)) in
      let l := nth d (nig_l dist) 0 in
      let m := nth d (nig_m dist) 0 in
      let l' := nth d (nig_l post) 0 in
      let m' := nth d (nig_m post) 0 in
      l' = l + N /\
      m' = (l * m + col_sum x d) / l' /\
      nth d (nig_a post) 0 = nth d (nig_a dist) 0 + N / 2 /\
      nth d (nig_b post) 0 =
        nth d (nig_b dist) 0 +
        1 / 2 * (col_sum_sq x d + l * m ^ 2 - l' * m' ^ 2).
Proof.
  intros Hdist Hc W. subst D.
  assert (Lx : length (sum_axis0 x) = ncols x) by (apply sum_axis0_length; exact W).
  assert (Lxx : length (sum_axis0 (square2 x)) = ncols x)
    by (apply (sum_axis0_length (square2 x)), wf2_square2; exact W).
  destruct (posterior_stats_spec dist (Z.of_nat (length (rows x)))
              (sum_axis0 x) (sum_axis0 (square2 x)) (ncols x) Hdist Lx Lxx)
    as (post & E & Hpost & Hd).
  exists post. split; [exact E|]. split.
  - rewrite <- sum_axis0_cols, <- sum_axis0_square2_cols by exact W. exact E.
  - split; [exact Hpost|]. intros d Hlt. simpl.
    destruct (Hd d Hlt) as (El & Em & Ea & Eb).
    rewrite <- INR_IZR_INZ in El, Em, Ea, Eb.
    rewrite sum_axis0_nth in Em, Eb by assumption.
    rewrite (sum_axis0_nth (square2 x)) in Eb
      by (try apply wf2_square2; assumption).
    rewrite col_sum_square2 in Eb by assumption.
    unfold closed_b, closed_m, closed_a, closed_l in *.
    rewrite El, Em, Ea, Eb. repeat split; reflexivity.
Qed.

(** C1 fails on the code: [posterior(dist, x)] hands the Python [int]
    [x.shape[0]] to a call that no method accepts, so it returns nothing,
    on the batch of the end-to-end scenario as on every batch; the
    statistics-form update on the same statistics, the count handed over
    as an array, does return the closed form [l' = 3], [m' = 4/3],
    [a' = 2], [b' = 10/3]. *)
Theorem posterior_batch_lookup_error :
  (forall dist x, posterior_batch dist x = None) /\
  exists post,
    posterior_dispatch unit_prior (IntArray0 2) (sum_axis0 batch_1_3)
      (sum_axis0 (square2 batch_1_3)) = Some post /\
    nth 0 (nig_l post) 0 = 3 /\ nth 0 (nig_m post) 0 = 4 / 3 /\
    nth 0 (nig_a post) 0 = 2 /\ nth 0 (nig_b post) 0 = 10 / 3.
Proof.
  split; [reflexivity|].
  assert (Hdim : nig_dim unit_prior 1) by (repeat split).
  assert (W : wf2 batch_1_3) by (repeat constructor).
  destruct (update_on_batch_closed_form unit_prior batch_1_3 1 Hdim eq_refl W)
    as (post & E & _ & _ & Hd).
  exists post. split; [exact E|].
  destruct (Hd 0%nat (Nat.lt_0_succ 0)) as (El & Em & Ea & Eb).
  unfold col_sum, col_sum_sq in *. simpl in *.
  rewrite El in Em. rewrite Em, El in Eb.
  repeat split.
  - rewrite El. lra.
  - rewrite Em. field.
  - rewrite Ea. lra.
  - rewrite Eb. field.
Qed.

(** ** Algebra of the statistics-form update *)

Lemma positive_nth v d : positive v -> (d < length v)%nat -> 0 < nth d v 0.
Proof.
  intros P Hd. unfold positive in P. rewrite Forall_forall in P.
  apply P, nth_In, Hd.
Qed.

(** C6: on a prior with [l > 0] and counts [N1, N2 >= 0], updating with
    [(N1, Σx1, Σx²1)] and then updating the result with [(N2, Σx2, Σx²2)]
    gives the same NormalInverseGamma as one update with
    [(N1+N2, Σx1+Σx2, Σx²1+Σx²2)]. *)
Theorem posterior_stats_additive dist D N1 N2 sx1 sx2 sxx1 sxx2 :
  nig_dim dist D -> positive (nig_l dist) ->
  (0 <= N1)%Z -> (0 <= N2)%Z ->
  length sx1 = D -> length sx2 = D -> length sxx1 = D -> length sxx2 = D ->
  exists p1 p2,
    posterior_stats dist N1 sx1 sxx1 = Some p1 /\
    posterior_stats p1 N2 sx2 sxx2 = Some p2 /\
    posterior_stats dist (N1 + N2) (map2 Rplus sx1 sx2) (map2 Rplus sxx1 sxx2)
      = Some p2.
Proof.
  intros Hdist Hpos HN1 HN2 L1 L2 L3 L4.
  destruct (posterior_stats_spec dist N1 sx1 sxx1 D Hdist L1 L3)
    as (p1 & E1 & Hp1 & C1).
  destruct (posterior_stats_spec p1 N2 sx2 sxx2 D Hp1 L2 L4)
    as (p2 & E2 & Hp2 & C2).
  destruct (posterior_stats_spec dist (N1 + N2) (map2 Rplus sx1 sx2)
              (map2 Rplus sxx1 sxx2) D Hdist) as (p & E & Hp & C);
    [len | len |].
  exists p1, p2. split; [exact E1|]. split; [exact E2|].
  rewrite E. f_equal. apply (nig_ext p p2 D Hp Hp2). intros d Hd.
  destruct (C1 d Hd) as (Al & Am & Aa & Ab).
  destruct (C2 d Hd) as (Bl & Bm & Ba & Bb).
  destruct (C d Hd) as (Cl & Cm & Ca & Cb).
  assert (Pl : 0 < nth d (nig_l dist) 0)
    by (apply positive_nth; [exact Hpos | destruct Hdist as (_ & Hl & _); lia]).
  apply IZR_le in HN1, HN2.
  rewrite Cl, Cm, Ca, Cb, Bl, Bm, Ba, Bb, Al, Am, Aa, Ab.
  rewrite !(nth_map2 _ _ _ _ 0 0 0) by lia.
  rewrite plus_IZR. unfold closed_b, closed_m, closed_a, closed_l.
  repeat split; field; repeat split; lra.
Qed.

Lemma posterior_stats_additive_witness :
  exists p1 p2,
    posterior_stats unit_prior 1 [1] [1] = Some p1 /\
    posterior_stats p1 1 [3] [9] = Some p2 /\
    posterior_stats unit_prior (1 + 1) (map2 Rplus [1] [3]) (map2 Rplus [1] [9])
      = Some p2.
Proof.
  apply (posterior_stats_additive unit_prior 1 1 1 [1] [3] [1] [9]);
    try reflexivity; try lia.
  - repeat split.
  - repeat constructor. lra.
Defined.

(** ** Grouped reductions *)

Lemma add_at_length {A} (f : A -> A -> A) acc i x :
  length (add_at f acc i x) = length acc.
Proof.
  revert i. induction acc as [|y r IH]; intros [|i]; simpl; auto.
Qed.

Lemma add_at_nth {A} (f : A -> A -> A) acc i x k d :
  (k < length acc)%nat ->
  nth k (add_at f acc i x) d =
    if Nat.eqb i k then f (nth k acc d) x else nth k acc d.
Proof.
  revert i k. induction acc as [|y r IH]; intros i k Hk; simpl in *; [lia|].
  destruct i, k; simpl; auto. apply IH. lia.
Qed.

Lemma scatter_add_length {A} (f : A -> A -> A) acc p :
  length (scatter_add f acc p) = length acc.
Proof.
  unfold scatter_add. destruct (snd p <? 0)%Z; auto using add_at_length.
Qed.

Lemma scatter_add_nth {A} (f : A -> A -> A) acc p k d :
  (k < length acc)%nat ->
  nth k (scatter_add f acc p) d =
    if (snd p =? Z.of_nat k)%Z then f (nth k acc d) (fst p) else nth k acc d.
Proof.
  intros Hk. unfold scatter_add.
  destruct (Z.ltb_spec (snd p) 0) as [Hneg|Hpos].
  - destruct (Z.eqb_spec (snd p) (Z.of_nat k)); [lia | reflexivity].
  - rewrite add_at_nth by assumption.
    destruct (Nat.eqb_spec (Z.to_nat (snd p)) k), (Z.eqb_spec (snd p) (Z.of_nat k));
      try reflexivity; lia.
Qed.

Lemma fold_scatter {A} (f : A -> A -> A) ps acc k d :
  (k < length acc)%nat ->
  length (fold_left (scatter_add f) ps acc) = length acc /\
  nth k (fold_left (scatter_add f) ps acc) d =
    fold_left f (map fst (filter (fun p => (snd p =? Z.of_nat k)%Z) ps))
      (nth k acc d).
Proof.
  revert acc. induction ps as [|p ps IH]; intros acc Hk; simpl; [auto|].
  destruct (IH (scatter_add f acc p)) as [L E];
    [rewrite scatter_add_length; exact Hk|].
  rewrite L, E, scatter_add_length, scatter_add_nth by assumption.
  split; [reflexivity|].
  destruct (snd p =? Z.of_nat k)%Z; reflexivity.
Qed.

Lemma fold_scatter_length {A} (f : A -> A -> A) ps acc :
  length (fold_left (scatter_add f) ps acc) = length acc.
Proof.
  revert acc. induction ps as [|p ps IH]; intros acc; simpl; [auto|].
  now rewrite IH, scatter_add_length.
Qed.

(** A grouped sum over well-shaped arguments has one entry per segment,
    and entry [k] is the sum of the members of segment [k]. *)
Lemma segment_sum_spec {A} (zero : A) (f : A -> A -> A) data c K :
  length data = length c ->
  exists out,
    segment_sum zero f data c K = Some out /\
    length out = K /\
    forall k, (k < K)%nat ->
      nth k out zero = fold_left f (members k data c) zero.
Proof.
  intros L. unfold segment_sum. rewrite L, Nat.eqb_refl.
  eexists. split; [reflexivity|]. split.
  - now rewrite fold_scatter_length, repeat_length.
  - intros k Hk.
    destruct (fold_scatter f (combine data c) (repeat zero K) k zero) as [_ E];
      [now rewrite repeat_length|].
    rewrite E. unfold members. f_equal.
    apply nth_repeat.
Qed.

Lemma members_map {A B} (g : A -> B) k data c :
  members k (map g data) c = map g (members k data c).
Proof.
  unfold members. revert c. induction data as [|x data IH]; intros [|i c];
    simpl; auto.
  destruct (i =? Z.of_nat k)%Z; simpl; now rewrite IH.
Qed.

Lemma members_Forall {A} (P : A -> Prop) k data c :
  Forall P data -> Forall P (members k data c).
Proof.
  unfold members. intros H. revert c.
  induction H as [|x data Hx _ IH]; intros [|i c]; simpl; auto.
  destruct (i =? Z.of_nat k)%Z; simpl; auto.
Qed.

(** No label equal to [k]: segment [k] has no member. *)
Lemma members_empty {A} k (data : list A) c :
  ~ In (Z.of_nat k) c -> members k data c = [].
Proof.
  unfold members. revert c. induction data as [|x data IH]; intros [|i c] N;
    simpl; auto.
  destruct (Z.eqb_spec i (Z.of_nat k)) as [->|_].
  - exfalso. apply N. now left.
  - apply IH. intros I. apply N. now right.
Qed.

Lemma count_ones k n c :
  fold_left Z.add (members k (repeat 1%Z n) c) 0%Z =
    Z.of_nat (length (members k (repeat 1%Z n) c)).
Proof.
  assert (G : forall (l : list Z) a, Forall (fun t => t = 1%Z) l ->
            fold_left Z.add l a = (a + Z.of_nat (length l))%Z).
  { induction l as [|t l IH]; intros a F; simpl; [lia|].
    inversion F; subst. rewrite IH by assumption. lia. }
  rewrite G; [lia|]. apply members_Forall.
  apply Forall_forall. intros t Ht. now apply repeat_spec in Ht.
Qed.

Lemma members_length {A B} k (u : list A) (v : list B) c :
  length u = length v -> length (members k u c) = length (members k v c).
Proof.
  unfold members. revert v c. induction u as [|x u IH]; intros [|y v] [|i c] L;
    simpl in *; try discriminate; auto.
  destruct (i =? Z.of_nat k)%Z; simpl; auto.
Qed.

(** ** The batched map over clusters *)

Lemma traverse_spec {A B} (f : A -> option B) xs :
  (forall x, In x xs -> exists y, f x = Some y) ->
  exists ys,
    traverse f xs = Some ys /\ length ys = length xs /\
    forall i dx dy, (i < length xs)%nat -> f (nth i xs dx) = Some (nth i ys dy).
Proof.
  induction xs as [|x xs IH]; intros Hf; simpl.
  - exists []. repeat split. intros; lia.
  - destruct (Hf x (or_introl eq_refl)) as (y & Ey).
    destruct IH as (ys & E & L & Hn); [intros z Hz; apply Hf; now right|].
    exists (y :: ys). rewrite Ey, E. repeat split; [simpl; congruence|].
    intros [|i] dx dy Hi; simpl; [exact Ey|]. apply Hn. lia.
Qed.

Lemma vmap_posterior_stats_spec dist N sum_x sum_x_sq K D :
  nig_dim dist D ->
  length N = K -> length sum_x = K -> length sum_x_sq = K ->
  (forall k, (k < K)%nat -> length (nth k sum_x []) = D) ->
  (forall k, (k < K)%nat -> length (nth k sum_x_sq []) = D) ->
  exists post,
    vmap_posterior_stats dist N sum_x sum_x_sq = Some post /\
    nig_leading post K /\
    forall k, (k < K)%nat ->
      posterior_stats dist (nth k N 0%Z) (nth k sum_x []) (nth k sum_x_sq [])
        = Some (nig_entry post k).
Proof.
  intros Hdist LN Lx Lxx Dx Dxx. unfold vmap_posterior_stats.
  rewrite LN, Lx, Lxx, Nat.eqb_refl. simpl.
  set (xs := combine N (combine sum_x sum_x_sq)).
  assert (Lxs : length xs = K)
    by (unfold xs; rewrite !length_combine; lia).
  assert (Nxs : forall k, (k < K)%nat ->
            nth k xs (0%Z, ([], [])) =
              (nth k N 0%Z, (nth k sum_x [], nth k sum_x_sq []))).
  { intros k Hk. unfold xs.
    rewrite combine_nth by (rewrite length_combine; lia).
    rewrite combine_nth by lia. reflexivity. }
  destruct (traverse_spec
              (fun t => posterior_stats dist (fst t) (fst (snd t)) (snd (snd t)))
              xs) as (rs & E & Lrs & Hn).
  { intros t Ht. destruct (In_nth _ _ (0%Z, ([], [])) Ht) as (k & Hk & <-).
    rewrite Lxs in Hk. rewrite Nxs by assumption. simpl.
    destruct (posterior_stats_spec dist (nth k N 0%Z) (nth k sum_x [])
                (nth k sum_x_sq []) D) as (p & Ep & _); auto.
    now exists p. }
  rewrite E. eexists. split; [reflexivity|]. split.
  - unfold nig_leading; simpl. rewrite !length_map. lia.
  - intros k Hk.
    specialize (Hn k (0%Z, ([], [])) (mkNormalInverseGamma [] [] [] [])).
    rewrite Lxs, Nxs in Hn by assumption. simpl in Hn. rewrite (Hn Hk).
    unfold nig_entry; simpl.
    rewrite !(nth_map_in _ _ _ (mkNormalInverseGamma [] [] [] [])) by lia.
    now destruct (nth k rs _).
Qed.

(** ** Statistics of each cluster *)

Lemma group_wf {A} (x : array2 A) c k : wf2 x -> wf2 (group x c k).
Proof.
  unfold wf2, group; simpl. apply members_Forall.
Qed.

Lemma num_segments_given c K :
  num_segments_of c (Some (Z.of_nat K)) = Some K.
Proof.
  unfold num_segments_of.
  destruct (Z.ltb_spec (Z.of_nat K) 0); [lia|]. now rewrite Nat2Z.id.
Qed.

(** The grouped statistics of a NormalInverseGamma batch. *)
Lemma nig_segment_stats (x : array2 R) c K :
  wf2 x -> length c = length (rows x) ->
  exists N sum_x sum_x_sq,
    segment_sum 0%Z Z.add (repeat 1%Z (length (rows x))) c K = Some N /\
    segment_sum (zeros (ncols x)) (map2 Rplus) (rows x) c K = Some sum_x /\
    segment_sum (zeros (ncols x)) (map2 Rplus) (rows (square2 x)) c K
      = Some sum_x_sq /\
    length N = K /\ length sum_x = K /\ length sum_x_sq = K /\
    forall k, (k < K)%nat ->
      nth k N 0%Z = Z.of_nat (length (rows (group x c k))) /\
      nth k sum_x [] = sum_axis0 (group x c k) /\
      nth k sum_x_sq [] = sum_axis0 (square2 (group x c k)).
Proof.
  intros W L.
  destruct (segment_sum_spec 0%Z Z.add (repeat 1%Z (length (rows x))) c K)
    as (N & EN & LN & HN); [now rewrite repeat_length|].
  destruct (segment_sum_spec (zeros (ncols x)) (map2 Rplus) (rows x) c K)
    as (sx & Ex & Lx & Hx); [congruence|].
  destruct (segment_sum_spec (zeros (ncols x)) (map2 Rplus)
              (rows (square2 x)) c K) as (sxx & Exx & Lxx & Hxx);
    [simpl; rewrite length_map; congruence|].
  exists N, sx, sxx. repeat (split; [assumption|]).
  intros k Hk. split; [|split].
  - rewrite HN, count_ones by assumption. f_equal. simpl.
    apply members_length. apply repeat_length.
  - rewrite nth_indep with (d' := zeros (ncols x)) by lia.
    now rewrite Hx.
  - rewrite nth_indep with (d' := zeros (ncols x)) by lia.
    rewrite Hxx by assumption. unfold sum_axis0, square2, group; simpl.
    now rewrite members_map.
Qed.

(** ** Rank-2 arrays *)

Lemma expand_id {A} (u : list A) n : length u = n -> expand n u = u.
Proof.
  intros <-. destruct u as [|x [|y u]]; reflexivity.
Qed.

Lemma map2_ext_in {A B C} (f g : A -> B -> C) u v :
  (forall x y, In x u -> In y v -> f x y = g x y) -> map2 f u v = map2 g u v.
Proof.
  revert v. induction u as [|x u IH]; intros [|y v] E; simpl; auto.
  f_equal; [apply E; now left|]. apply IH. intros; apply E; now right.
Qed.

Lemma ew2_2d_same_shape {A B C} (f : A -> B -> C) x y n k :
  has_shape x n k -> has_shape y n k ->
  ew2_2d f x y = Some (mkArray2 k (map2 (map2 f) (rows x) (rows y))).
Proof.
  intros (Lx & Cx & Wx) (Ly & Cy & Wy). unfold ew2_2d, broadcast_shape.
  rewrite Lx, Ly, Cx, Cy, !Nat.eqb_refl. simpl. f_equal. f_equal.
  rewrite !expand_id by assumption.
  apply map2_ext_in. intros u v Hu Hv.
  unfold wf2 in Wx, Wy. rewrite Forall_forall in Wx, Wy.
  rewrite !expand_id; auto; [rewrite Wy | rewrite Wx]; auto.
Qed.

Lemma array2_ext {A} (x y : array2 A) n k (d0 : A) :
  has_shape x n k -> has_shape y n k ->
  (forall d j, (d < n)%nat -> (j < k)%nat ->
     nth j (nth d (rows x) []) d0 = nth j (nth d (rows y) []) d0) ->
  x = y.
Proof.
  destruct x as [cx rx], y as [cy ry]. unfold has_shape, wf2; simpl.
  intros (Lx & Cx & Wx) (Ly & Cy & Wy) E. subst cx cy. f_equal.
  rewrite Forall_forall in Wx, Wy.
  apply (nth_ext _ _ [] []); [congruence|]. intros d Hd.
  assert (Lr : length (nth d rx []) = k) by (apply Wx, nth_In, Hd).
  assert (Lr' : length (nth d ry []) = k) by (apply Wy, nth_In; congruence).
  apply (nth_ext _ _ d0 d0); [congruence|]. intros j Hj.
  apply E; congruence.
Qed.

Lemma map2_rows_shape {A B C} (f : A -> B -> C) (x : array2 A) (y : array2 B) n k :
  has_shape x n k -> has_shape y n k ->
  has_shape (mkArray2 k (map2 (map2 f) (rows x) (rows y))) n k.
Proof.
  intros (Lx & Cx & Wx) (Ly & Cy & Wy). unfold has_shape, wf2 in *; simpl.
  split; [len|]. split; [reflexivity|].
  rewrite Forall_forall in *. intros r Hr.
  destruct (In_nth _ _ [] Hr) as (d & Hd & <-).
  rewrite length_map2 in Hd by congruence.
  rewrite (nth_map2 _ _ _ _ [] [] []) by congruence.
  assert (Lr : length (nth d (rows x) []) = k)
    by (rewrite <- Cx; apply Wx, nth_In; lia).
  assert (Lr' : length (nth d (rows y) []) = k)
    by (rewrite <- Cy; apply Wy, nth_In; lia).
  rewrite length_map2; congruence.
Qed.

Lemma map2_rows_nth {A B C} (f : A -> B -> C) (x : array2 A) (y : array2 B)
    n k d j da db dc :
  has_shape x n k -> has_shape y n k -> (d < n)%nat -> (j < k)%nat ->
  nth j (nth d (map2 (map2 f) (rows x) (rows y)) []) dc =
    f (nth j (nth d (rows x) []) da) (nth j (nth d (rows y) []) db).
Proof.
  intros (Lx & Cx & Wx) (Ly & Cy & Wy) Hd Hj. unfold wf2 in *.
  rewrite Forall_forall in *.
  assert (Lr : length (nth d (rows x) []) = k)
    by (rewrite <- Cx; apply Wx, nth_In; lia).
  assert (Lr' : length (nth d (rows y) []) = k)
    by (rewrite <- Cy; apply Wy, nth_In; lia).
  rewrite (nth_map2 _ _ _ _ [] [] []) by congruence.
  apply nth_map2; congruence.
Qed.

(** ** Posterior of a Dirichlet from counts *)

Lemma zero_counts_shape n k : has_shape (zero_counts n k) n k.
Proof.
  unfold has_shape, zero_counts, wf2; simpl. rewrite repeat_length.
  repeat split. apply Forall_forall. intros r Hr.
  apply repeat_spec in Hr. subst r. apply repeat_length.
Qed.

Lemma zero_counts_nth n k d j : nth j (nth d (rows (zero_counts n k)) []) 0%Z = 0%Z.
Proof.
  unfold zero_counts; simpl.
  destruct (Nat.lt_ge_cases d n) as [Hd|Hd].
  - rewrite nth_repeat_lt by assumption.
    destruct (Nat.lt_ge_cases j k) as [Hj|Hj].
    + now rewrite nth_repeat_lt.
    + apply nth_overflow. now rewrite repeat_length.
  - rewrite (nth_overflow (repeat (repeat 0%Z k) n))
      by (now rewrite repeat_length).
    now destruct j.
Qed.

Lemma posterior_counts_spec dist counts n k :
  has_shape (dirichlet_alpha dist) n k -> has_shape counts n k ->
  exists post,
    posterior_counts dist counts = Some post /\
    has_shape (dirichlet_alpha post) n k /\
    forall d j, (d < n)%nat -> (j < k)%nat ->
      nth j (nth d (rows (dirichlet_alpha post)) []) 0 =
        nth j (nth d (rows (dirichlet_alpha dist)) []) 0 +
        IZR (nth j (nth d (rows counts) []) 0%Z).
Proof.
  intros Ha Hc. unfold posterior_counts.
  rewrite (ew2_2d_same_shape _ _ _ n k Ha Hc). simpl.
  eexists. split; [reflexivity|]. simpl. split.
  - apply map2_rows_shape; assumption.
  - intros d j Hd Hj.
    now rewrite (map2_rows_nth _ _ _ n k d j 0 0%Z 0 Ha Hc Hd Hj).
Qed.

(** C8: for a Dirichlet prior and a count array of its shape,
    [posterior(dist, counts)] is the Dirichlet with
    [alpha' = alpha + counts] entry by entry; with all-zero counts it is
    the prior itself. *)
Theorem posterior_counts_adds dist counts n k :
  has_shape (dirichlet_alpha dist) n k -> has_shape counts n k ->
  (exists post,
     posterior_counts dist counts = Some post /\
     has_shape (dirichlet_alpha post) n k /\
     forall d j, (d < n)%nat -> (j < k)%nat ->
       nth j (nth d (rows (dirichlet_alpha post)) []) 0 =
         nth j (nth d (rows (dirichlet_alpha dist)) []) 0 +
         IZR (nth j (nth d (rows counts) []) 0%Z)) /\
  posterior_counts dist (zero_counts n k) = Some dist.
Proof.
  intros Ha Hc. split; [apply posterior_counts_spec; assumption|].
  destruct (posterior_counts_spec dist (zero_counts n k) n k Ha
              (zero_counts_shape n k)) as (post & E & Hp & Hn).
  rewrite E. f_equal.
  assert (Eq : dirichlet_alpha post = dirichlet_alpha dist).
  { apply (array2_ext _ _ n k 0 Hp Ha). intros d j Hd Hj.
    rewrite Hn, zero_counts_nth by assumption. lra. }
  destruct post, dist; simpl in Eq; congruence.
Qed.

Lemma posterior_counts_adds_witness :
  posterior_counts alpha_2_3 counts_2_3
    = Some (mkDirichlet (mkArray2 3 [[1 + 0; 2 + 2; 3 + 1]; [1 / 2 + 3; 1 + 0; 1 + 0]])) /\
  posterior_counts alpha_2_3 (zero_counts 2 3) = Some alpha_2_3.
Proof.
  assert (Ha : has_shape (dirichlet_alpha alpha_2_3) 2 3)
    by (repeat split; repeat constructor).
  assert (Hc : has_shape counts_2_3 2 3)
    by (repeat split; repeat constructor).
  destruct (posterior_counts_adds alpha_2_3 counts_2_3 2 3 Ha Hc) as [_ Z0].
  split; [reflexivity | exact Z0].
Defined.

(** ** One-hot counts per cluster *)

Lemma arange_length n : length (arange n) = n.
Proof. unfold arange. now rewrite length_map, length_seq. Qed.

Lemma arange_nth n i : (i < n)%nat -> nth i (arange n) 0%Z = Z.of_nat i.
Proof.
  intros Hi. unfold arange.
  rewrite (nth_map_in _ _ _ 0%nat) by (now rewrite length_seq).
  now rewrite seq_nth.
Qed.

Lemma one_hot_length k v : length (one_hot k v) = k.
Proof. unfold one_hot. now rewrite length_map, arange_length. Qed.

Lemma one_hot_nth k v j :
  (j < k)%nat ->
  nth j (one_hot k v) 0%Z = if (v =? Z.of_nat j)%Z then 1%Z else 0%Z.
Proof.
  intros Hj. unfold one_hot.
  rewrite (nth_map_in _ _ _ 0%Z) by (now rewrite arange_length).
  now rewrite arange_nth.
Qed.

Lemma one_hot_row_shape k r n : length r = n -> has_shape (one_hot_row k r) n k.
Proof.
  intros L. unfold has_shape, one_hot_row, wf2; simpl.
  rewrite length_map. repeat split; [assumption|].
  apply Forall_map, Forall_forall. intros v _. apply one_hot_length.
Qed.

Lemma add_counts_shape u v n k :
  has_shape u n k -> has_shape v n k -> has_shape (add_counts u v) n k.
Proof.
  intros Hu Hv. unfold add_counts.
  replace (ncols u) with k by (symmetry; apply Hu).
  apply map2_rows_shape; assumption.
Qed.

Lemma fold_counts_spec (rs : list (list Z)) acc n k :
  Forall (fun r => length r = n) rs -> has_shape acc n k ->
  has_shape (fold_left add_counts (map (one_hot_row k) rs) acc) n k /\
  forall d j, (d < n)%nat -> (j < k)%nat ->
    nth j (nth d (rows (fold_left add_counts (map (one_hot_row k) rs) acc)) []) 0%Z =
      (nth j (nth d (rows acc) []) 0%Z +
       Z.of_nat (length (filter (fun row => (nth d row (-1) =? Z.of_nat j)%Z) rs)))%Z.
Proof.
  intros Hrs. revert acc.
  induction Hrs as [|r rs Hr _ IH]; intros acc Hacc; simpl.
  - split; [assumption|]. intros; lia.
  - assert (Hrow : has_shape (one_hot_row k r) n k)
      by (apply one_hot_row_shape; assumption).
    destruct (IH (add_counts acc (one_hot_row k r))) as [S E];
      [apply add_counts_shape; assumption|].
    split; [assumption|]. intros d j Hd Hj. rewrite E by assumption.
    unfold add_counts at 1. simpl rows at 1.
    rewrite (map2_rows_nth _ _ _ n k d j 0%Z 0%Z 0%Z Hacc Hrow Hd Hj).
    unfold one_hot_row; simpl.
    rewrite (nth_map_in _ _ _ (-1)%Z) by lia.
    rewrite one_hot_nth by assumption.
    destruct (nth d r (-1) =? Z.of_nat j)%Z; simpl length; lia.
Qed.

Lemma group_counts_shape k (g : array2 Z) : has_shape (group_counts k g) (ncols g) k.
Proof.
  unfold has_shape, group_counts, wf2; simpl.
  rewrite length_map, length_seq. repeat split.
  apply Forall_map, Forall_forall. intros d _.
  now rewrite length_map, length_seq.
Qed.

Lemma group_counts_nth k (g : array2 Z) d j :
  (d < ncols g)%nat -> (j < k)%nat ->
  nth j (nth d (rows (group_counts k g)) []) 0%Z = cat_count g d j.
Proof.
  intros Hd Hj. unfold group_counts; simpl.
  rewrite (nth_map_in _ _ _ 0%nat) by (now rewrite length_seq).
  rewrite (nth_map_in _ _ _ 0%nat) by (now rewrite length_seq).
  now rewrite !seq_nth.
Qed.

Lemma group_counts_empty k (g : array2 Z) :
  rows g = [] -> group_counts k g = zero_counts (ncols g) k.
Proof.
  intros Emp.
  apply (array2_ext _ _ (ncols g) k 0%Z (group_counts_shape k g)
           (zero_counts_shape (ncols g) k)).
  intros d j Hd Hj. rewrite group_counts_nth, zero_counts_nth by assumption.
  unfold cat_count. now rewrite Emp.
Qed.

(** The grouped one-hot counts of cluster [k] are the category counts of
    the observations labelled [k]. *)
Lemma one_hot_fold_counts (x : array2 Z) c k num_classes :
  wf2 x ->
  fold_left add_counts
    (members k (map (one_hot_row num_classes) (rows x)) c)
    (zero_counts (ncols x) num_classes)
  = group_counts num_classes (group x c k).
Proof.
  intros W. rewrite members_map.
  destruct (fold_counts_spec (members k (rows x) c)
              (zero_counts (ncols x) num_classes) (ncols x) num_classes)
    as [S E]; [apply members_Forall, W | apply zero_counts_shape |].
  apply (array2_ext _ _ (ncols x) num_classes 0%Z S
           (group_counts_shape num_classes (group x c k))).
  intros d j Hd Hj.
  rewrite E, zero_counts_nth, group_counts_nth by assumption.
  reflexivity.
Qed.

(** ** Posterior per cluster *)

(** C2: with [max_clusters = K] and labels in [[0, K)], the per-cluster
    posterior of a NormalInverseGamma and of a Dirichlet has leading
    dimension exactly [K]; entry [k] is the single-cluster update applied
    to the statistics of exactly the observations labelled [k]; and a
    cluster with no observation gets count 0, zero sums and zero one-hot
    counts. *)
Theorem posterior_per_cluster :
  (forall (dist : NormalInverseGamma vec) (x : array2 R) (c : list Z) (K D : nat),
     nig_dim dist D -> has_shape x (length c) D -> in_range K c ->
     exists N sum_x sum_x_sq post,
       segment_sum 0%Z Z.add (repeat 1%Z (length (rows x))) c K = Some N /\
       segment_sum (zeros D) (map2 Rplus) (rows x) c K = Some sum_x /\
       segment_sum (zeros D) (map2 Rplus) (rows (square2 x)) c K
         = Some sum_x_sq /\
       posterior_clusters dist x c (Some (Z.of_nat K)) = Some post /\
       nig_leading post K /\
       forall k, (k < K)%nat ->
         let g := group x c k in
         nth k N 0%Z = Z.of_nat (length (rows g)) /\
         nth k sum_x [] = map (col_sum g) (seq 0 D) /\
         nth k sum_x_sq [] = map (col_sum_sq g) (seq 0 D) /\
         posterior_stats dist (nth k N 0%Z) (nth k sum_x []) (nth k sum_x_sq [])
           = Some (nig_entry post k) /\
         (rows g = [] ->
            nth k N 0%Z = 0%Z /\ nth k sum_x [] = zeros D /\
            nth k sum_x_sq [] = zeros D)) /\
  (forall (dist : Dirichlet (array2 R)) (x : array2 Z) (c : list Z)
          (K D num_classes : nat),
     has_shape (dirichlet_alpha dist) D num_classes ->
     has_shape x (length c) D -> in_range K c ->
     exists counts post,
       segment_sum (zero_counts D num_classes) add_counts
         (map (one_hot_row num_classes) (rows x)) c K = Some counts /\
       posterior_dirichlet_clusters dist x c (Some (Z.of_nat K)) = Some post /\
       length (dirichlet_alpha post) = K /\
       forall k, (k < K)%nat ->
         let g := group x c k in
         let counts_k := nth k counts (zero_counts D num_classes) in
         counts_k = group_counts num_classes g /\
         posterior_counts dist counts_k
           = Some (mkDirichlet (nth k (dirichlet_alpha post) (mkArray2 0 []))) /\
         (rows g = [] -> counts_k = zero_counts D num_classes)).
Proof.
  split.
  - intros dist x c K D Hdist (Lx & Cx & W) _.
    destruct (nig_segment_stats x c K W (eq_sym Lx))
      as (N & sx & sxx & EN & Ex & Exx & LN & Lsx & Lsxx & Hk).
    rewrite Cx in Ex, Exx.
    assert (Wg : forall k, wf2 (group x c k)) by (intro; apply group_wf, W).
    assert (Dx : forall k, (k < K)%nat -> length (nth k sx []) = D).
    { intros k Hlt. destruct (Hk k Hlt) as (_ & -> & _).
      rewrite sum_axis0_length by apply Wg. exact Cx. }
    assert (Dxx : forall k, (k < K)%nat -> length (nth k sxx []) = D).
    { intros k Hlt. destruct (Hk k Hlt) as (_ & _ & ->).
      rewrite sum_axis0_length by apply wf2_square2, Wg. exact Cx. }
    destruct (vmap_posterior_stats_spec dist N sx sxx K D Hdist LN Lsx Lsxx Dx Dxx)
      as (post & Ev & Lead & Hv).
    exists N, sx, sxx, post. repeat (split; [assumption|]). split.
    { unfold posterior_clusters. rewrite num_segments_given, Cx.
      rewrite bind_some, EN, bind_some, Ex, bind_some, Exx, bind_some.
      exact Ev. }
    split; [exact Lead|]. intros k Hlt. simpl.
    destruct (Hk k Hlt) as (HN & Hsx & Hsxx).
    split; [exact HN|].
    split; [rewrite Hsx, sum_axis0_cols by apply Wg; simpl; now rewrite Cx|].
    split; [rewrite Hsxx, sum_axis0_square2_cols by apply Wg; simpl; now rewrite Cx|].
    split; [apply Hv, Hlt|].
    intros Emp. rewrite HN, Hsx, Hsxx.
    unfold sum_axis0, square2. simpl. rewrite Emp, Cx. simpl. auto.
  - intros dist x c K D num_classes Ha (Lx & Cx & W) _.
    assert (Enc : ncols (dirichlet_alpha dist) = num_classes) by apply Ha.
    destruct (segment_sum_spec (zero_counts D num_classes) add_counts
                (map (one_hot_row num_classes) (rows x)) c K)
      as (counts & Ec & Lc & Hc); [now rewrite length_map|].
    assert (Hg : forall k, (k < K)%nat ->
              nth k counts (zero_counts D num_classes)
                = group_counts num_classes (group x c k)).
    { intros k Hlt. rewrite Hc by assumption. rewrite <- Cx.
      apply one_hot_fold_counts, W. }
    destruct (traverse_spec (posterior_counts dist) counts) as (rs & Et & Lrs & Hn).
    { intros u Hu.
      destruct (In_nth _ _ (zero_counts D num_classes) Hu) as (k & Hlt & <-).
      rewrite Lc in Hlt. rewrite Hg by assumption.
      destruct (posterior_counts_spec dist
                  (group_counts num_classes (group x c k)) D num_classes Ha)
        as (p & Ep & _).
      - rewrite <- Cx. apply (group_counts_shape num_classes (group x c k)).
      - now exists p. }
    exists counts, (mkDirichlet (map dirichlet_alpha rs)).
    split; [exact Ec|]. split.
    { unfold posterior_dirichlet_clusters.
      rewrite num_segments_given, Enc, Cx.
      rewrite bind_some, Ec, bind_some, Et. reflexivity. }
    split; [simpl; rewrite length_map; congruence|].
    intros k Hlt. simpl. split; [apply Hg, Hlt|]. split.
    + rewrite (Hn k (zero_counts D num_classes) (mkDirichlet (mkArray2 0 [])))
        by congruence.
      rewrite (nth_map_in _ _ _ (mkDirichlet (mkArray2 0 []))) by congruence.
      now destruct (nth k rs _).
    + intros Emp. rewrite Hg by assumption.
      rewrite <- Cx. apply (group_counts_empty num_classes (group x c k)), Emp.
Qed.

(** ** Sampling *)

Lemma bind_draw {Key A B} p (k : Key) (v : A) (f : A -> Sampler Key B) :
  bind (draw p k v) f = ((p, k) :: draws (f v), value (f v)).
Proof. reflexivity. Qed.

Lemma bind_lift {Key A B} (x : A) (f : A -> Sampler Key B) :
  bind (lift (Some x)) f = f x.
Proof. unfold lift. simpl. now destruct (f x). Qed.

Section SamplingFacts.

Context {Key : Type} `{RandomSource Key}.

(** The draws and the value of [sample] on a NormalInverseGamma of
    dimension [D]. *)
Lemma sample_nig_run (key : Key) dist D :
  nig_dim dist D ->
  let g := loggamma key (nig_a dist) in
  let log_lambda := map2 Rminus g (map ln (nig_b dist)) in
  let log_sigma := map2 Rminus (map Ropp (map ln (nig_l dist))) log_lambda in
  let std := map exp (map (fun t => t / 2) log_sigma) in
  let z := normal (snd (split key)) D in
  sample_NormalInverseGamma key dist =
    ([(LogGammaDraw, key); (NormalDraw, snd (split key))],
     Some (mkNormal (map2 Rplus (nig_m dist) (map2 Rmult z std))
             (map exp (map (fun t => - t / 2) log_lambda)))).
Proof.
  intros (Hm & Hl & Ha & Hb). simpl.
  assert (Lg : length (loggamma key (nig_a dist)) = D)
    by (now rewrite loggamma_shape).
  assert (Lz : length (normal (snd (split key)) D) = D)
    by apply normal_shape.
  unfold sample_NormalInverseGamma, sub, mul, add.
  rewrite bind_draw.
  rewrite ew2_same_length, bind_lift by len.
  rewrite ew2_same_length, bind_lift by len.
  rewrite bind_draw, Hm.
  rewrite ew2_same_length, bind_lift by len.
  rewrite ew2_same_length, bind_lift by len.
  reflexivity.
Qed.

(** The first primitive draw of [sample] on a NormalInverseGamma is the
    log-gamma draw, and it is handed the key that [sample] received. *)
Lemma sample_nig_first_draw (key : Key) dist :
  exists rest,
    draws (sample_NormalInverseGamma key dist) = (LogGammaDraw, key) :: rest.
Proof.
  unfold sample_NormalInverseGamma. rewrite bind_draw. simpl. eauto.
Qed.

(** The draws of [sample] on a MixedConjugate. *)
Lemma sample_mixed_draws (key : Key) dist D :
  nig_dim (mc_nig dist) D ->
  draws (sample_MixedConjugate key dist) =
    [(LogGammaDraw, fst (split key));
     (NormalDraw, snd (split (fst (split key))));
     (DirichletDraw, snd (split key))].
Proof.
  intros Hd. unfold sample_MixedConjugate.
  pose proof (sample_nig_run (fst (split key)) (mc_nig dist) D Hd) as E.
  simpl in E. rewrite E. reflexivity.
Qed.

End SamplingFacts.

(** C3 as stated fails: for [l = 2] the [std] of the returned Normal is
    not [exp(log σ / 2)]. *)
Lemma sample_nig_std_counterexample :
  exists n,
    value (sample_NormalInverseGamma (Seed 0) prior_l2) = Some n /\
    let log_lambda := nth 0 (loggamma (Seed 0) [1]) 0 - ln 1 in
    let log_sigma := - ln 2 - log_lambda in
    nth 0 (normal_std n) 0 <> exp (log_sigma / 2).
Proof.
  eexists. split.
  - rewrite (sample_nig_run (Seed 0) prior_l2 1) by (repeat split).
    reflexivity.
  - simpl. intros E. apply exp_inv in E.
    pose proof ln_lt_2. lra.
Qed.

(** C3, amended: on a prior of dimension [D], [sample(key, dist)] returns
    a Normal whose [std] is [exp(−log λ / 2)], where
    [log λ = loggamma(a) − log b] is the log-space Gamma draw, and whose
    [mu] is [m + z·exp(log σ / 2)] with [log σ = −log l − log λ], for a
    standard-normal draw [z]. *)
Theorem sample_nig_normal {Key : Type} `{RandomSource Key}
    (key : Key) (dist : NormalInverseGamma vec) (D : nat) :
  nig_dim dist D ->
  exists n,
    value (sample_NormalInverseGamma key dist) = Some n /\
    length (normal_mu n) = D /\ length (normal_std n) = D /\
    forall d, (d < D)%nat ->
      let log_lambda :=
        nth d (loggamma key (nig_a dist)) 0 - ln (nth d (nig_b dist) 0) in
      let log_sigma := - ln (nth d (nig_l dist) 0) - log_lambda in
      let z := nth d (normal (snd (split key)) D) 0 in
      nth d (normal_std n) 0 = exp (- log_lambda / 2) /\
      nth d (normal_mu n) 0 = nth d (nig_m dist) 0 + z * exp (log_sigma / 2).
Proof.
  intros Hd. pose proof (sample_nig_run key dist D Hd) as E. simpl in E.
  destruct Hd as (Hm & Hl & Ha & Hb).
  assert (Lg : length (loggamma key (nig_a dist)) = D)
    by (now rewrite loggamma_shape).
  assert (Lz : length (normal (snd (split key)) D) = D) by apply normal_shape.
  eexists. split; [rewrite E; reflexivity|]. simpl.
  split; [len|]. split; [len|].
  intros d Hlt. nth_in. split; reflexivity.
Qed.

Lemma sample_nig_normal_witness :
  exists n,
    value (sample_NormalInverseGamma (Seed 0) prior_l2) = Some n /\
    nth 0 (normal_std n) 0 = exp (- (0 - ln 1) / 2) /\
    nth 0 (normal_mu n) 0 = 0 + 1 * exp ((- ln 2 - (0 - ln 1)) / 2).
Proof.
  assert (Hd : nig_dim prior_l2 1) by (repeat split).
  destruct (sample_nig_normal (Seed 0) prior_l2 1 Hd) as (n & E & _ & _ & Hn).
  exists n. split; [exact E|]. exact (Hn 0%nat (Nat.lt_0_succ 0)).
Defined.

(** C9 fails on the code: [sample] on a NormalInverseGamma hands the key
    it received, unsplit, to the log-gamma draw; the first half of the
    split is not used. *)
Theorem sample_nig_draws_unsplit_key :
  draws (sample_NormalInverseGamma (Seed 0) unit_prior) =
    [(LogGammaDraw, Seed 0); (NormalDraw, Half1 (Seed 0))].
Proof.
  rewrite (sample_nig_run (Seed 0) unit_prior 1) by (repeat split).
  reflexivity.
Qed.

(** ** Indexing *)

Lemma getitem_clamped {A} (arr : list A) (i : Z) (d : A) :
  arr <> [] ->
  getitem arr i =
    Some (nth (clamp_index (length arr) (normalize_index (length arr) i)) arr d).
Proof.
  intros NE. unfold getitem. apply nth_error_nth'.
  unfold clamp_index. destruct arr; [congruence|]. simpl length. lia.
Qed.

Lemma index_in_range n i :
  (0 <= i < Z.of_nat n)%Z -> clamp_index n (normalize_index n i) = Z.to_nat i.
Proof.
  intros Hi. unfold clamp_index, normalize_index.
  destruct (Z.ltb_spec i 0); lia.
Qed.

Lemma getitem_in_range {A} (arr : list A) (i : Z) (d : A) :
  (0 <= i < Z.of_nat (length arr))%Z ->
  getitem arr i = Some (nth (Z.to_nat i) arr d).
Proof.
  intros Hi. rewrite (getitem_clamped arr i d).
  - now rewrite index_in_range.
  - destruct arr; [simpl in Hi; lia | discriminate].
Qed.

(** [Categorical.__getitem__] does not depend on its key. *)
Lemma Categorical_getitem_key {A} (self : Categorical (list A)) (key : Z) :
  Categorical_getitem self key = Categorical_getitem self 0%Z.
Proof. reflexivity. Qed.

(** [Normal.__getitem__] and [Dirichlet.__getitem__] select the sub-arrays
    at the key. *)
Lemma Normal_getitem_key {A} (self : Normal (list A)) (key : Z) n :
  Normal_getitem self key = Some n ->
  getitem (normal_mu self) key = Some (normal_mu n) /\
  getitem (normal_std self) key = Some (normal_std n).
Proof.
  unfold Normal_getitem.
  destruct (getitem (normal_mu self) key), (getitem (normal_std self) key);
    simpl; intros E; inversion E; auto.
Qed.

Lemma Dirichlet_getitem_key {A} (self : Dirichlet (list A)) (key : Z) n :
  Dirichlet_getitem self key = Some n ->
  getitem (dirichlet_alpha self) key = Some (dirichlet_alpha n).
Proof.
  unfold Dirichlet_getitem.
  destruct (getitem (dirichlet_alpha self) key); simpl; intros E;
    inversion E; auto.
Qed.

(** C4 fails on the code: indexing a batched Categorical at key 1 returns
    the parameters of cluster 0, not [logprobs[1]], and the density of a
    point under cluster 1 is evaluated under cluster 0. *)
Theorem Categorical_getitem_returns_cluster_0 :
  Categorical_getitem two_clusters 1 = Some (mkCategorical (mkArray2 2 [[-1; -2]])) /\
  getitem (cat_logprobs two_clusters) 1 = Some (mkArray2 2 [[-3; -4]]) /\
  mkArray2 2 [[-1; -2]] <> mkArray2 2 [[-3; -4]] /\
  logpdf_F (FCategorical two_clusters) (DInt [0%Z]) 1 = Some (0 + -1) /\
  logpdf_Categorical (mkCategorical (mkArray2 2 [[-3; -4]])) [0%Z] = Some (0 + -3).
Proof.
  repeat split; try reflexivity.
  intros E. injection E as E. lra.
Qed.

(** ** Log-density of a Categorical *)

Lemma sum_big_sum v : sum v = big_sum v.
Proof.
  unfold sum, big_sum. apply fold_symmetric; intros; lra.
Qed.

Lemma traverse_values {A B} (f : A -> option B) (g : A -> B) xs :
  (forall x, In x xs -> f x = Some (g x)) -> traverse f xs = Some (map g xs).
Proof.
  induction xs as [|x xs IH]; intros Hf; simpl; [reflexivity|].
  rewrite Hf by (now left). rewrite IH; [reflexivity|].
  intros y Hy. apply Hf. now right.
Qed.

Lemma combine_arange {A} (x : list A) (d : A) :
  combine (arange (length x)) x =
    map (fun j => (Z.of_nat j, nth j x d)) (seq 0 (length x)).
Proof.
  apply (nth_ext _ _ (0%Z, d) (0%Z, d)).
  - rewrite length_combine, arange_length, length_map, length_seq. lia.
  - intros j Hj. rewrite length_combine, arange_length in Hj.
    rewrite combine_nth by apply arange_length.
    rewrite arange_nth by lia.
    rewrite (nth_map_in _ _ _ 0%nat) by (rewrite length_seq; lia).
    rewrite seq_nth by lia. reflexivity.
Qed.

(** The value of [logpdf] on a Categorical with at least one category:
    every index is normalized and clamped, and nothing is raised. *)
Lemma logpdf_Categorical_clamped dist x n K :
  has_shape (cat_logprobs dist) n K -> length x = n -> (0 < K)%nat ->
  logpdf_Categorical dist x =
    Some (big_sum
            (map (fun i => entry (cat_logprobs dist) i
                             (clamp_index K (normalize_index K (nth i x 0%Z))))
                 (seq 0 n))).
Proof.
  intros (Ln & Ck & W) Lx HK. unfold logpdf_Categorical.
  rewrite (combine_arange x 0%Z), Lx.
  rewrite (traverse_values _
             (fun ix => entry (cat_logprobs dist) (Z.to_nat (fst ix))
                          (clamp_index K (normalize_index K (snd ix))))).
  - simpl. rewrite sum_big_sum, map_map. simpl. f_equal. f_equal.
    apply map_ext. intros j. now rewrite Nat2Z.id.
  - intros (i & xi) Hin. apply in_map_iff in Hin.
    destruct Hin as (j & E & Hj). inversion E; subst i xi. clear E.
    apply in_seq in Hj. simpl fst. simpl snd.
    rewrite (getitem_in_range (rows (cat_logprobs dist)) (Z.of_nat j) [])
      by lia.
    rewrite bind_some, Nat2Z.id.
    assert (Lr : length (nth j (rows (cat_logprobs dist)) []) = K).
    { rewrite <- Ck. unfold wf2 in W. rewrite Forall_forall in W.
      apply W, nth_In. lia. }
    rewrite (getitem_clamped _ _ 0) by (intros E; rewrite E in Lr; simpl in Lr; lia).
    rewrite Lr. reflexivity.
Qed.

(** C7 as stated fails: the value 5 is outside [[0, 2)], and the
    evaluation returns a value instead of failing. *)
Lemma logpdf_Categorical_out_of_range_counterexample :
  ~ (0 <= 5 < 2)%Z /\
  logpdf_Categorical one_dim_cat [5%Z] = Some (0 + -2).
Proof.
  split; [lia | reflexivity].
Qed.

(** C7, amended: on a Categorical with [logprobs] of shape [[n_dim, K]],
    [K > 0], and an integer vector [x] of length [n_dim]: if every [x_i]
    is in [[0, K)] then [logpdf(dist, x)] is the sum over [i] of
    [logprobs[i, x_i]]; for any [x] the evaluation returns a value and
    raises nothing, an [x_i] outside the range being counted from the end
    of the row when negative and then clamped into [[0, K-1]]. *)
Theorem logpdf_Categorical_sum dist x n K :
  has_shape (cat_logprobs dist) n K -> length x = n -> (0 < K)%nat ->
  (in_range K x ->
   logpdf_Categorical dist x =
     Some (big_sum (map (fun i => entry (cat_logprobs dist) i
                                    (Z.to_nat (nth i x 0%Z)))
                        (seq 0 n)))) /\
  logpdf_Categorical dist x =
    Some (big_sum
            (map (fun i => entry (cat_logprobs dist) i
                             (clamp_index K (normalize_index K (nth i x 0%Z))))
                 (seq 0 n))).
Proof.
  intros Hs Lx HK. split; [|apply logpdf_Categorical_clamped; assumption].
  intros Hr. rewrite (logpdf_Categorical_clamped dist x n K) by assumption.
  f_equal. f_equal. apply map_ext_in. intros i Hi. apply in_seq in Hi.
  rewrite index_in_range; [reflexivity|].
  unfold in_range in Hr. rewrite Forall_forall in Hr.
  apply Hr, nth_In. lia.
Qed.

Lemma logpdf_Categorical_sum_witness :
  logpdf_Categorical one_dim_cat [1%Z] = Some (big_sum [entry (cat_logprobs one_dim_cat) 0 1]) /\
  logpdf_Categorical one_dim_cat [5%Z] = Some (big_sum [entry (cat_logprobs one_dim_cat) 0 1]).
Proof.
  assert (Hs : has_shape (cat_logprobs one_dim_cat) 1 2)
    by (repeat split; repeat constructor).
  assert (HK : (0 < 2)%nat) by lia.
  split.
  - apply (proj1 (logpdf_Categorical_sum one_dim_cat [1%Z] 1 2 Hs eq_refl HK)).
    repeat constructor; lia.
  - apply (proj2 (logpdf_Categorical_sum one_dim_cat [5%Z] 1 2 Hs eq_refl HK)).
Defined.

(** ** Log-density of the stick-breaking weights *)

Lemma set_at0_length {A} (arr : list A) v : length (set_at0 arr v) = length arr.
Proof. now destruct arr. Qed.

Lemma set_at0_nth {A} (arr : list A) v i d :
  (i < length arr)%nat ->
  nth i (set_at0 arr v) d = match i with O => v | S _ => nth i arr d end.
Proof.
  destruct arr as [|a arr]; simpl; [lia|]. now destruct i.
Qed.

Lemma vmap2_same_length {A B C} (f : A -> B -> C) u v :
  length u = length v -> vmap2 f u v = Some (map2 f u v).
Proof.
  intros E. unfold vmap2. now rewrite E, Nat.eqb_refl.
Qed.

Lemma slice_to_firstn {A} (K : Z) (v : list A) :
  (0 <= K)%Z -> slice_to K v = firstn (Z.to_nat K) v.
Proof.
  intros HK. unfold slice_to. destruct (Z.ltb_spec K 0); [lia | reflexivity].
Qed.

Lemma firstn_seq_prefix k s n :
  (k <= n)%nat -> firstn k (seq s n) = seq s k.
Proof.
  revert s n. induction k as [|k IH]; intros s [|n] Hk; simpl; try lia; auto.
  f_equal. apply IH. lia.
Qed.

Section StickBreakingFacts.

Variable beta_logpdf : R -> R -> R -> R.

(** The terms [logprobs] of [logpdf] on a GEM, for non-empty weights. *)
Lemma logpdf_GEM_terms dist pi K :
  pi <> [] ->
  logpdf_GEM beta_logpdf dist pi K =
    Some (sum (slice_to K
                 (map (fun i => beta_logpdf (stick_fraction pi i)
                                  (1 - gem_d dist)
                                  (gem_alpha dist + (INR i + 1) * gem_d dist))
                      (seq 0 (length pi))))).
Proof.
  intros NE. unfold logpdf_GEM.
  set (n := length pi).
  assert (Hn : (0 < n)%nat)
    by (subst n; destruct pi; [congruence | simpl; lia]).
  rewrite (traverse_values _
             (fun i => 1 - nth (Z.to_nat i) pi 0 /
                           nth (clamp_index n (normalize_index n (i - 1))) pi 0)).
  2:{ intros i Hi. unfold arange in Hi. apply in_map_iff in Hi.
      destruct Hi as (j & <- & Hj). apply in_seq in Hj.
      rewrite (getitem_in_range pi (Z.of_nat j) 0) by (fold n; lia).
      rewrite bind_some, (getitem_clamped pi _ 0 NE), bind_some.
      reflexivity. }
  rewrite bind_some, (getitem_in_range pi 0 0) by (fold n; lia).
  rewrite bind_some.
  rewrite vmap2_same_length
    by (rewrite set_at0_length, !length_map; reflexivity).
  rewrite bind_some. simpl ret. f_equal. f_equal. f_equal.
  apply (nth_ext _ _ 0 0).
  - rewrite length_map2
      by (rewrite set_at0_length, !length_map; reflexivity).
    rewrite set_at0_length, !length_map, arange_length, length_seq.
    reflexivity.
  - intros i Hi.
    rewrite length_map2 in Hi
      by (rewrite set_at0_length, !length_map; reflexivity).
    rewrite set_at0_length, length_map, arange_length in Hi.
    rewrite (nth_map2 _ _ _ _ 0 0 0)
      by (rewrite set_at0_length, !length_map, ?arange_length; lia).
    rewrite (nth_map_in _ _ _ 0%nat) by (rewrite length_seq; lia).
    rewrite seq_nth by lia. simpl Nat.add.
    rewrite set_at0_nth by (rewrite length_map, arange_length; lia).
    rewrite !(nth_map_in _ _ _ 0%Z) by (rewrite arange_length; lia).
    rewrite arange_nth by lia.
    rewrite <- INR_IZR_INZ, (Rplus_comm 1 (INR i)).
    f_equal. destruct i as [|j]; [reflexivity|]. simpl stick_fraction.
    rewrite Nat2Z.id. do 3 f_equal.
    unfold clamp_index, normalize_index.
    destruct (Z.ltb_spec (Z.of_nat (S j) - 1) 0); lia.
Qed.

End StickBreakingFacts.

(** C5: for weights [pi] in [(0, 1]] and [1 <= K <= len(pi)],
    [logpdf(dist, pi, K)] is the sum over [i = 0..K−1] of the
    Beta([1−d], [alpha + (i+1)·d]) log-density at [β_i], with [β_0 = pi_0]
    and [β_i = 1 − pi_i/pi_{i−1}] for [i >= 1]; for GEM(alpha=1, d=0),
    [pi = [1.0]], [K = 1] it is the Beta(1, 1) log-density at 1.0, a value
    and not an error. *)
Theorem logpdf_GEM_sum (beta_logpdf : R -> R -> R -> R) :
  (forall dist pi K,
     weights_in_unit pi -> (1 <= K <= Z.of_nat (length pi))%Z ->
     logpdf_GEM beta_logpdf dist pi K =
       Some (big_sum
               (map (fun i => beta_logpdf (stick_fraction pi i)
                                (1 - gem_d dist)
                                (gem_alpha dist + (INR i + 1) * gem_d dist))
                    (seq 0 (Z.to_nat K))))) /\
  logpdf_GEM beta_logpdf gem_1_0 [1] 1 = Some (beta_logpdf 1 1 1).
Proof.
  split.
  - intros dist pi K _ HK.
    rewrite logpdf_GEM_terms by (intros E; rewrite E in HK; simpl in HK; lia).
    rewrite slice_to_firstn by lia.
    rewrite firstn_map, firstn_seq_prefix, sum_big_sum by lia.
    reflexivity.
  - rewrite logpdf_GEM_terms by discriminate.
    unfold slice_to, sum. simpl.
    replace (1 - 0) with 1 by lra.
    replace (1 + (0 + 1) * 0) with 1 by lra.
    f_equal. lra.
Qed.

Lemma logpdf_GEM_sum_witness :
  logpdf_GEM beta_log_kernel gem_1_0 [1 / 2; 1 / 4] 2 =
    Some (big_sum
            (map (fun i => beta_log_kernel (stick_fraction [1 / 2; 1 / 4] i)
                             (1 - gem_d gem_1_0)
                             (gem_alpha gem_1_0 + (INR i + 1) * gem_d gem_1_0))
                 (seq 0 (Z.to_nat 2)))).
Proof.
  apply (proj1 (logpdf_GEM_sum beta_log_kernel) gem_1_0 [1 / 2; 1 / 4] 2%Z).
  - repeat constructor; lra.
  - simpl. lia.
Defined.

(** ** Empty clusters and the zero statistic *)

(** Entry [k] of the per-cluster posterior is the statistics-form update
    on the statistics of the observations labelled [k]. *)
Lemma posterior_clusters_groups dist (x : array2 R) c K D :
  nig_dim dist D -> has_shape x (length c) D ->
  exists post,
    posterior_clusters dist x c (Some (Z.of_nat K)) = Some post /\
    nig_leading post K /\
    forall k, (k < K)%nat ->
      update_on_batch dist (group x c k) = Some (nig_entry post k).
Proof.
  intros Hdist (Lx & Cx & W).
  destruct (nig_segment_stats x c K W (eq_sym Lx))
    as (N & sx & sxx & EN & Ex & Exx & LN & Lsx & Lsxx & Hk).
  assert (Wg : forall k, wf2 (group x c k)) by (intro; apply group_wf, W).
  destruct (vmap_posterior_stats_spec dist N sx sxx K D Hdist LN Lsx Lsxx)
    as (post & Ev & Lead & Hv).
  - intros k Hlt. destruct (Hk k Hlt) as (_ & -> & _).
    rewrite sum_axis0_length by apply Wg. exact Cx.
  - intros k Hlt. destruct (Hk k Hlt) as (_ & _ & ->).
    rewrite sum_axis0_length by apply wf2_square2, Wg. exact Cx.
  - exists post. split; [|split; [exact Lead|]].
    + unfold posterior_clusters. rewrite num_segments_given.
      rewrite bind_some, EN, bind_some, Ex, bind_some, Exx, bind_some.
      exact Ev.
    + intros k Hlt. destruct (Hk k Hlt) as (HN & Hsx & Hsxx).
      unfold update_on_batch, posterior_dispatch.
      rewrite <- HN, <- Hsx, <- Hsxx. apply Hv, Hlt.
Qed.

(** C10: on a prior with [l > 0], the update with [N = 0], [Σx = 0],
    [Σx² = 0] returns the prior itself, all of [m], [l], [a], [b]
    unchanged; hence a cluster with no observation carries the prior
    through the per-cluster update. *)
Theorem posterior_stats_zero dist D :
  nig_dim dist D -> positive (nig_l dist) ->
  posterior_stats dist 0 (zeros D) (zeros D) = Some dist /\
  forall (x : array2 R) c K k,
    has_shape x (length c) D -> (k < K)%nat -> rows (group x c k) = [] ->
    exists post,
      posterior_clusters dist x c (Some (Z.of_nat K)) = Some post /\
      nig_entry post k = dist.
Proof.
  intros Hdist Hpos.
  assert (Zero : posterior_stats dist 0 (zeros D) (zeros D) = Some dist).
  { destruct (posterior_stats_spec dist 0 (zeros D) (zeros D) D Hdist)
      as (p & E & Hp & C); [len | len |].
    rewrite E. f_equal. apply (nig_ext p dist D Hp Hdist). intros d Hd.
    destruct (C d Hd) as (Cl & Cm & Ca & Cb).
    assert (Pl : 0 < nth d (nig_l dist) 0)
      by (apply positive_nth; [exact Hpos | destruct Hdist as (_ & Hl & _); lia]).
    rewrite Cl, Cm, Ca, Cb, !nth_zeros.
    unfold closed_b, closed_m, closed_a, closed_l.
    repeat split; field; lra. }
  split; [exact Zero|].
  intros x c K k Hx Hk Emp.
  destruct (posterior_clusters_groups dist x c K D Hdist Hx)
    as (post & E & _ & Hg).
  exists post. split; [exact E|].
  specialize (Hg k Hk). unfold update_on_batch, posterior_dispatch in Hg.
  unfold sum_axis0, square2 in Hg. simpl in Hg, Emp. rewrite Emp in Hg.
  simpl in Hg. destruct Hx as (_ & Cx & _). rewrite Cx in Hg.
  rewrite Zero in Hg. congruence.
Qed.

Lemma posterior_stats_zero_witness :
  posterior_stats unit_prior 0 (zeros 1) (zeros 1) = Some unit_prior /\
  exists post,
    posterior_clusters unit_prior batch_1_3_5 labels_0_2_0 (Some (Z.of_nat 3))
      = Some post /\
    nig_entry post 1 = unit_prior.
Proof.
  assert (Hd : nig_dim unit_prior 1) by (repeat split).
  assert (Hp : positive (nig_l unit_prior)) by (repeat constructor; lra).
  destruct (posterior_stats_zero unit_prior 1 Hd Hp) as [Z0 Hc].
  split; [exact Z0|].
  apply (Hc batch_1_3_5 labels_0_2_0 3%nat 1%nat).
  - repeat split; repeat constructor.
  - lia.
  - reflexivity.
Defined.

Lemma posterior_per_cluster_witness :
  (exists post,
     posterior_clusters unit_prior batch_1_3_5 labels_0_2_0 (Some (Z.of_nat 3))
       = Some post /\
     nig_leading post 3 /\
     posterior_stats unit_prior 0 (zeros 1) (zeros 1)
       = Some (nig_entry post 1)) /\
  (exists post,
     posterior_dirichlet_clusters alpha_2_3 cats_3_2 labels_0_2_0
       (Some (Z.of_nat 3)) = Some post /\
     length (dirichlet_alpha post) = 3%nat).
Proof.
  assert (Hr : in_range 3 labels_0_2_0) by (repeat constructor; lia).
  split.
  - assert (Hd : nig_dim unit_prior 1) by (repeat split).
    assert (Hx : has_shape batch_1_3_5 (length labels_0_2_0) 1)
      by (repeat split; repeat constructor).
    destruct (proj1 posterior_per_cluster unit_prior batch_1_3_5 labels_0_2_0
                3%nat 1%nat Hd Hx Hr)
      as (N & sx & sxx & post & _ & _ & _ & E & L & Hk).
    exists post. split; [exact E|]. split; [exact L|].
    assert (H13 : (1 < 3)%nat) by lia.
    destruct (Hk 1%nat H13) as (_ & _ & _ & Hs & Hz).
    destruct (Hz eq_refl) as (E1 & E2 & E3).
    rewrite E1, E2, E3 in Hs. exact Hs.
  - assert (Ha : has_shape (dirichlet_alpha alpha_2_3) 2 3)
      by (repeat split; repeat constructor).
    assert (Hx : has_shape cats_3_2 (length labels_0_2_0) 2)
      by (repeat split; repeat constructor).
    destruct (proj2 posterior_per_cluster alpha_2_3 cats_3_2 labels_0_2_0
                3%nat 2%nat 3%nat Ha Hx Hr)
      as (counts & post & _ & E & L & _).
    exists post. split; [exact E | exact L].
Defined.

(** * Further properties of the module *)

(** ** Shapes that do not agree *)

Lemma ew2_mismatch {A B C} (f : A -> B -> C) u v :
  length u <> length v -> length u <> 1%nat -> length v <> 1%nat ->
  ew2 f u v = None.
Proof.
  intros N1 N2 N3. unfold ew2, broadcast_shape.
  destruct (Nat.eqb_spec (length u) (length v)); [contradiction|].
  destruct (Nat.eqb_spec (length u) 1); [contradiction|].
  destruct (Nat.eqb_spec (length v) 1); [contradiction|]. reflexivity.
Qed.

Lemma map2_repeat_l {A B C} (f : A -> B -> C) a v :
  map2 f (repeat a (length v)) v = map (f a) v.
Proof. induction v as [|y v IH]; simpl; [reflexivity | now rewrite IH]. Qed.

Lemma ew2_scalar_l {A B C} (f : A -> B -> C) a v :
  ew2 f [a] v = Some (map (f a) v).
Proof.
  destruct v as [|y [|z v]]; try reflexivity.
  unfold ew2, broadcast_shape, expand. simpl. do 3 f_equal.
  apply map2_repeat_l.
Qed.

Lemma map2_repeat_r {A B C} (f : A -> B -> C) u b :
  map2 f u (repeat b (length u)) = map (fun t => f t b) u.
Proof. induction u as [|y u IH]; simpl; [reflexivity | now rewrite IH]. Qed.

Lemma ew2_scalar_r {A B C} (f : A -> B -> C) u b :
  ew2 f u [b] = Some (map (fun t => f t b) u).
Proof.
  destruct u as [|y [|z u]]; try reflexivity.
  unfold ew2, broadcast_shape, expand. simpl. do 3 f_equal.
  apply map2_repeat_r.
Qed.

Lemma map_seq_ext (v : vec) (f : nat -> R) D :
  length v = D -> (forall d, (d < D)%nat -> nth d v 0 = f d) ->
  v = map f (seq 0 D).
Proof.
  intros L E. apply (nth_ext _ _ 0 0).
  - now rewrite length_map, length_seq.
  - intros d Hd. rewrite L in Hd.
    rewrite (nth_map_in _ _ _ 0%nat) by (now rewrite length_seq).
    rewrite seq_nth by assumption. now apply E.
Qed.

(** ** Log-density of a Normal *)

(** X1: on a Normal of dimension [D] and a point of dimension [D],
    [logpdf] is the sum over the dimensions of
    [−½·log(2π) − log σ − ½·((x − μ)/σ)²]. *)
Theorem logpdf_Normal_closed_form dist x D :
  length (normal_mu dist) = D -> length (normal_std dist) = D ->
  length x = D ->
  logpdf_Normal dist x =
    Some (big_sum
            (map (fun d => normal_term (nth d (normal_mu dist) 0)
                             (nth d (normal_std dist) 0) (nth d x 0))
                 (seq 0 D))).
Proof.
  intros Lm Ls Lx. unfold logpdf_Normal. run_ew2.
  simpl. rewrite sum_big_sum. do 2 f_equal.
  apply map_seq_ext; [len|]. intros d Hd. nth_in.
  unfold normal_term. replace 0.5 with (1 / 2) by lra. lra.
Qed.

Lemma logpdf_Normal_closed_form_witness :
  logpdf_Normal (mkNormal [0] [1]) [0] =
    Some (big_sum [normal_term 0 1 0]).
Proof.
  apply (logpdf_Normal_closed_form (mkNormal [0] [1]) [0] 1); reflexivity.
Defined.

(** X2: a point whose dimension is neither that of the Normal nor 1 is
    rejected; a point of dimension 1 is broadcast against every dimension
    of the Normal. *)
Theorem logpdf_Normal_shapes dist x D :
  length (normal_mu dist) = D -> length (normal_std dist) = D ->
  (D <> 1)%nat ->
  (length x <> D -> length x <> 1%nat -> logpdf_Normal dist x = None) /\
  (forall x0, x = [x0] ->
     logpdf_Normal dist x =
       Some (big_sum
               (map (fun d => normal_term (nth d (normal_mu dist) 0)
                                (nth d (normal_std dist) 0) x0)
                    (seq 0 D)))).
Proof.
  intros Lm Ls HD. split.
  - intros N1 N2. unfold logpdf_Normal, sub.
    rewrite ew2_mismatch by congruence. reflexivity.
  - intros x0 ->. unfold logpdf_Normal, sub at 1.
    rewrite ew2_scalar_l, bind_some. run_ew2.
    simpl. rewrite sum_big_sum. do 2 f_equal.
    apply map_seq_ext; [len|]. intros d Hd. nth_in.
    unfold normal_term. replace 0.5 with (1 / 2) by lra. lra.
Qed.

Lemma logpdf_Normal_shapes_witness :
  logpdf_Normal (mkNormal [0; 1] [1; 2]) [1; 2; 3] = None /\
  logpdf_Normal (mkNormal [0; 1] [1; 2]) [5] =
    Some (big_sum [normal_term 0 1 5; normal_term 1 2 5]).
Proof.
  destruct (logpdf_Normal_shapes (mkNormal [0; 1] [1; 2]) [1; 2; 3] 2
              eq_refl eq_refl) as [E _]; [lia|].
  destruct (logpdf_Normal_shapes (mkNormal [0; 1] [1; 2]) [5] 2
              eq_refl eq_refl) as [_ B]; [lia|].
  split; [apply E; simpl; lia | apply (B 5 eq_refl)].
Defined.

(** ** Posterior of a NormalInverseGamma: shapes, validity, composition *)

(** X3: statistics whose dimension is neither that of the prior nor 1 are
    rejected by the statistics-form update. *)
Theorem posterior_stats_shape_error dist N sum_x sum_x_sq D :
  nig_dim dist D -> (D <> 1)%nat ->
  (length sum_x <> D /\ length sum_x <> 1%nat) \/
  (length sum_x_sq <> D /\ length sum_x_sq <> 1%nat) ->
  posterior_stats dist N sum_x sum_x_sq = None.
Proof.
  intros (Hm & Hl & Ha & Hb) HD Hbad. unfold posterior_stats.
  unfold mul at 1. rewrite ew2_same_length, bind_some by congruence.
  destruct (Nat.eq_dec (length sum_x) D) as [Ex|Nx].
  - destruct Hbad as [[Bx _]|[Bq B1]]; [contradiction|].
    unfold add at 1. rewrite ew2_same_length, bind_some by len.
    unfold div at 1. rewrite ew2_same_length, bind_some by len.
    unfold mul at 1. rewrite ew2_same_length, bind_some by len.
    unfold add at 1. rewrite ew2_mismatch; [reflexivity | | assumption |].
    + rewrite length_map2 by len. congruence.
    + rewrite length_map2 by len. congruence.
  - destruct (Nat.eq_dec (length sum_x) 1) as [E1|N1].
    + destruct Hbad as [[_ Bx]|[Bq B1]]; [contradiction|].
      destruct sum_x as [|s [|s' r]]; simpl in E1; try discriminate.
      unfold add at 1. rewrite ew2_scalar_r, bind_some.
      unfold div at 1. rewrite ew2_same_length, bind_some by len.
      unfold mul at 1. rewrite ew2_same_length, bind_some by len.
      unfold add at 1. rewrite ew2_mismatch; [reflexivity | | assumption |].
      * rewrite length_map2 by len. congruence.
      * rewrite length_map2 by len. congruence.
    + unfold add at 1. rewrite ew2_mismatch; [reflexivity | | |assumption].
      * rewrite length_map2 by len. congruence.
      * rewrite length_map2 by len. congruence.
Qed.

Lemma posterior_stats_shape_error_witness :
  posterior_stats (mkNormalInverseGamma [0; 0] [1; 1] [1; 1] [1; 1]) 2
    [1; 2; 3] [1; 4] = None.
Proof.
  apply (posterior_stats_shape_error _ 2 [1; 2; 3] [1; 4] 2).
  - repeat split.
  - lia.
  - left. simpl. lia.
Defined.

(** The update on the statistics of a batch in closed form, coordinate by
    coordinate. *)
Lemma update_on_batch_spec dist x D :
  nig_dim dist D -> ncols x = D -> wf2 x ->
  exists post,
    update_on_batch dist x = Some post /\
    nig_dim post D /\
    forall d, (d < D)%nat ->
      let N := INR (length (rows x)) in
      let l := nth d (nig_l dist) 0 in
      let m := nth d (nig_m dist) 0 in
      nth d (nig_l post) 0 = closed_l l N /\
      nth d (nig_m post) 0 = closed_m l m N (col_sum x d) /\
      nth d (nig_a post) 0 = closed_a (nth d (nig_a dist) 0) N /\
      nth d (nig_b post) 0 =
        closed_b l m (nth d (nig_b dist) 0) N (col_sum x d) (col_sum_sq x d).
Proof.
  intros Hdist Hc W. subst D.
  destruct (posterior_stats_spec dist (Z.of_nat (length (rows x)))
              (sum_axis0 x) (sum_axis0 (square2 x)) (ncols x) Hdist)
    as (post & E & Hpost & Hd).
  - apply sum_axis0_length, W.
  - apply (sum_axis0_length (square2 x)), wf2_square2, W.
  - exists post. split; [exact E|]. split; [exact Hpost|].
    intros d Hlt. simpl. destruct (Hd d Hlt) as (El & Em & Ea & Eb).
    rewrite <- INR_IZR_INZ in El, Em, Ea, Eb.
    rewrite sum_axis0_nth in Em, Eb by assumption.
    rewrite (sum_axis0_nth (square2 x)) in Eb
      by (try apply wf2_square2; assumption).
    rewrite col_sum_square2 in Eb by assumption.
    auto.
Qed.

(** The sum of squared distances to any point is not negative. *)
Lemma spread_nonneg (v : vec) (t : R) :
  0 <= big_sum (map (fun x => x ^ 2) v) - 2 * t * big_sum v
       + INR (length v) * t ^ 2.
Proof.
  induction v as [|x v IH].
  - simpl. lra.
  - change (length (x :: v)) with (S (length v)). rewrite S_INR.
    change (big_sum (map (fun x => x ^ 2) (x :: v)))
      with (x ^ 2 + big_sum (map (fun x => x ^ 2) v)).
    change (big_sum (x :: v)) with (x + big_sum v).
    pose proof (pow2_ge_0 (x - t)).
    set (Q := big_sum (map (fun x => x ^ 2) v)) in *.
    set (S := big_sum v) in *. set (n := INR (length v)) in *.
    nra.
Qed.

(** The weighted Cauchy-Schwarz inequality behind [b' >= b]. *)
Lemma weighted_cauchy (v : vec) (l m : R) :
  0 < l ->
  (l * m + big_sum v) ^ 2 <=
    (l + INR (length v)) * (big_sum (map (fun x => x ^ 2) v) + l * m ^ 2).
Proof.
  intros Hl. induction v as [|x v IH].
  - simpl. nra.
  - change (length (x :: v)) with (S (length v)). rewrite S_INR.
    change (big_sum (map (fun x => x ^ 2) (x :: v)))
      with (x ^ 2 + big_sum (map (fun x => x ^ 2) v)).
    change (big_sum (x :: v)) with (x + big_sum v).
    pose proof (spread_nonneg v x) as Sp.
    pose proof (pow2_ge_0 (m - x)) as Sq.
    assert (Lq : 0 <= l * (m - x) ^ 2) by (apply Rmult_le_pos; lra).
    set (Q := big_sum (map (fun x => x ^ 2) v)) in *.
    set (S := big_sum v) in *. set (n := INR (length v)) in *.
    nra.
Qed.

Lemma closed_b_ge (v : vec) (l m b : R) :
  0 < l ->
  b <= closed_b l m b (INR (length v)) (big_sum v)
         (big_sum (map (fun x => x ^ 2) v)).
Proof.
  intros Hl. pose proof (weighted_cauchy v l m Hl) as CS.
  pose proof (pos_INR (length v)) as Hn.
  unfold closed_b, closed_m, closed_l.
  set (n := INR (length v)) in *. set (S := big_sum v) in *.
  set (Q := big_sum (map (fun x => x ^ 2) v)) in *.
  assert (E : (l + n) * ((l * m + S) / (l + n)) ^ 2 = (l * m + S) ^ 2 / (l + n))
    by (field; lra).
  rewrite E.
  assert (0 <= Q + l * m ^ 2 - (l * m + S) ^ 2 / (l + n)).
  { apply Rmult_le_reg_l with (r := l + n); [lra|].
    replace ((l + n) * (Q + l * m ^ 2 - (l * m + S) ^ 2 / (l + n)))
      with ((l + n) * (Q + l * m ^ 2) - (l * m + S) ^ 2) by (field; lra).
    lra. }
  lra.
Qed.

Lemma col_sums_as_list x d :
  col_sum x d = big_sum (map (fun r => nth d r 0) (rows x)) /\
  col_sum_sq x d =
    big_sum (map (fun t => t ^ 2) (map (fun r => nth d r 0) (rows x))).
Proof.
  unfold col_sum, col_sum_sq, big_sum. now rewrite map_map.
Qed.

Lemma positive_of_nth (v : vec) :
  (forall d, (d < length v)%nat -> 0 < nth d v 0) -> positive v.
Proof.
  intros H. apply Forall_forall. intros t Ht.
  destruct (In_nth _ _ 0 Ht) as (d & Hd & <-). now apply H.
Qed.

(** A valid prior and the statistics of a batch give a valid posterior
    with [b' >= b]. *)
Lemma update_keeps_valid dist x D :
  nig_dim dist D -> valid_nig dist -> ncols x = D -> wf2 x ->
  exists post,
    update_on_batch dist x = Some post /\ nig_dim post D /\
    valid_nig post /\
    forall d, (d < D)%nat -> nth d (nig_b dist) 0 <= nth d (nig_b post) 0.
Proof.
  intros Hdist (Pl & Pa & Pb) Hc W.
  destruct (update_on_batch_spec dist x D Hdist Hc W) as (post & E & Hpost & Hd).
  destruct Hdist as (Lm & Ll & La & Lb).
  destruct Hpost as (Lm' & Ll' & La' & Lb').
  assert (Hb : forall d, (d < D)%nat ->
            nth d (nig_b dist) 0 <= nth d (nig_b post) 0).
  { intros d Hlt. destruct (Hd d Hlt) as (_ & _ & _ & ->).
    destruct (col_sums_as_list x d) as [-> ->].
    rewrite <- (length_map (fun r => nth d r 0) (rows x)).
    apply closed_b_ge. apply positive_nth; [exact Pl | lia]. }
  exists post. split; [exact E|]. split; [repeat split; assumption|].
  split; [|exact Hb].
  pose proof (pos_INR (length (rows x))) as Hn.
  repeat split; apply positive_of_nth; intros d Hlt.
  - rewrite Ll' in Hlt. destruct (Hd d Hlt) as (-> & _).
    assert (0 < nth d (nig_l dist) 0) by (apply positive_nth; [exact Pl | lia]).
    unfold closed_l. lra.
  - rewrite La' in Hlt. destruct (Hd d Hlt) as (_ & _ & -> & _).
    assert (0 < nth d (nig_a dist) 0) by (apply positive_nth; [exact Pa | lia]).
    unfold closed_a. lra.
  - rewrite Lb' in Hlt.
    assert (0 < nth d (nig_b dist) 0) by (apply positive_nth; [exact Pb | lia]).
    specialize (Hb d Hlt). lra.
Qed.

(** X4: on a valid prior ([l, a, b > 0]), the statistics-form update with
    the count, the sums and the sums of squares of a batch returns a
    valid NormalInverseGamma, and [b] does not decrease in any
    dimension. *)
Theorem posterior_stats_valid dist x D :
  nig_dim dist D -> valid_nig dist -> ncols x = D -> wf2 x ->
  exists post,
    posterior_stats dist (Z.of_nat (length (rows x)))
      (map (col_sum x) (seq 0 D)) (map (col_sum_sq x) (seq 0 D)) = Some post /\
    valid_nig post /\
    forall d, (d < D)%nat -> nth d (nig_b dist) 0 <= nth d (nig_b post) 0.
Proof.
  intros Hdist Hv Hc W.
  destruct (update_keeps_valid dist x D Hdist Hv Hc W) as (post & E & _ & V & B).
  exists post. split; [|auto]. subst D.
  rewrite <- sum_axis0_cols, <- sum_axis0_square2_cols by exact W. exact E.
Qed.

Lemma posterior_stats_valid_witness :
  exists post,
    posterior_stats unit_prior (Z.of_nat (length (rows batch_1_3)))
      (map (col_sum batch_1_3) (seq 0 1)) (map (col_sum_sq batch_1_3) (seq 0 1))
      = Some post /\
    valid_nig post /\
    forall d, (d < 1)%nat -> nth d (nig_b unit_prior) 0 <= nth d (nig_b post) 0.
Proof.
  apply (posterior_stats_valid unit_prior batch_1_3 1).
  - repeat split.
  - repeat split; repeat constructor; lra.
  - reflexivity.
  - repeat constructor.
Defined.

Lemma big_sum_perm (u v : vec) : Permutation u v -> big_sum u = big_sum v.
Proof.
  induction 1; simpl; lra.
Qed.

Lemma col_sum_perm (x y : array2 R) d :
  Permutation (rows x) (rows y) ->
  col_sum x d = col_sum y d /\ col_sum_sq x d = col_sum_sq y d.
Proof.
  intros P. unfold col_sum, col_sum_sq.
  split; apply big_sum_perm, Permutation_map, P.
Qed.

(** The update on the statistics of a batch does not depend on the order
    of its rows. *)
Lemma update_on_batch_perm dist (x y : array2 R) :
  wf2 x -> ncols x = ncols y -> Permutation (rows x) (rows y) ->
  update_on_batch dist x = update_on_batch dist y.
Proof.
  intros Wx Ec P.
  assert (Wy : wf2 y).
  { unfold wf2 in *. rewrite <- Ec.
    eapply Permutation_Forall; [exact P | exact Wx]. }
  unfold update_on_batch.
  rewrite (Permutation_length P).
  rewrite (sum_axis0_cols x), (sum_axis0_cols y) by assumption.
  rewrite (sum_axis0_square2_cols x), (sum_axis0_square2_cols y) by assumption.
  rewrite <- Ec.
  f_equal; apply map_ext; intros d; apply (col_sum_perm x y d P).
Qed.

(** ** Per-cluster posterior: labels out of range, conservation, validity *)

Lemma stacked_ext (p q : NormalInverseGamma (list vec)) K :
  nig_leading p K -> nig_leading q K ->
  (forall k, (k < K)%nat -> nig_entry p k = nig_entry q k) -> p = q.
Proof.
  destruct p as [pm pl pa pb], q as [qm ql qa qb].
  unfold nig_leading, nig_entry; simpl.
  intros (Lm & Ll & La & Lb) (Lm' & Ll' & La' & Lb') E.
  f_equal; apply (nth_ext _ _ [] []); try congruence; intros k Hk;
    (assert (Hlt : (k < K)%nat) by congruence);
    specialize (E k Hlt); congruence.
Qed.

Lemma combine_fst_snd {A B} (ps : list (A * B)) :
  combine (map fst ps) (map snd ps) = ps.
Proof.
  induction ps as [|[a b] ps IH]; simpl; [reflexivity | now rewrite IH].
Qed.

Lemma filter_filter_implied {A} (f g : A -> bool) (l : list A) :
  (forall a, f a = true -> g a = true) ->
  filter f (filter g l) = filter f l.
Proof.
  intros I. induction l as [|a l IH]; simpl; [reflexivity|].
  destruct (g a) eqn:G; simpl.
  - destruct (f a); now rewrite IH.
  - destruct (f a) eqn:Fa; [apply I in Fa; congruence | exact IH].
Qed.

Lemma filter_fst_Forall {A B} (P : A -> Prop) (g : A * B -> bool) data c :
  Forall P data -> Forall P (map fst (filter g (combine data c))).
Proof.
  intros H. revert c. induction H as [|x data Hx _ IH]; intros [|i c];
    simpl; auto.
  destruct (g (x, i)); simpl; auto.
Qed.

(** The kept observations form a batch of the same width whose groups are
    those of the whole batch. *)
Lemma kept_groups {A} (x : array2 A) c K k :
  (k < K)%nat ->
  members k (map fst (labelled_in_range K x c))
            (map snd (labelled_in_range K x c)) = members k (rows x) c.
Proof.
  intros Hk. unfold members. rewrite combine_fst_snd.
  unfold labelled_in_range. f_equal. apply filter_filter_implied.
  intros [r i]; simpl. intros E. apply Z.eqb_eq in E. subst i.
  apply andb_true_intro. split; [apply Z.leb_le | apply Z.ltb_lt]; lia.
Qed.

(** X8: an observation whose label is outside [[0, K)] raises nothing and
    contributes to no cluster: the per-cluster posterior returns a value,
    the one it returns on the batch with those observations removed. *)
Theorem posterior_clusters_drops_out_of_range dist (x : array2 R) c K D :
  nig_dim dist D -> has_shape x (length c) D ->
  exists post,
    posterior_clusters dist x c (Some (Z.of_nat K)) = Some post /\
    posterior_clusters dist
      (mkArray2 (ncols x) (map fst (labelled_in_range K x c)))
      (map snd (labelled_in_range K x c)) (Some (Z.of_nat K)) = Some post.
Proof.
  intros Hdist Hx.
  set (kept := labelled_in_range K x c).
  assert (Hx' : has_shape (mkArray2 (ncols x) (map fst kept))
                  (length (map snd kept)) D).
  { destruct Hx as (Lx & Cx & W). unfold has_shape, wf2. simpl.
    rewrite !length_map. repeat split; [exact Cx|].
    apply filter_fst_Forall, W. }
  destruct (posterior_clusters_groups dist x c K D Hdist Hx)
    as (p & E & L & G).
  destruct (posterior_clusters_groups dist _ _ K D Hdist Hx')
    as (q & E' & L' & G').
  exists p. split; [exact E|]. rewrite E'. f_equal.
  symmetry. apply (stacked_ext p q K L L').
  intros k Hk. specialize (G k Hk). specialize (G' k Hk).
  unfold group in G'. simpl in G'. unfold kept in G'.
  rewrite kept_groups in G' by assumption.
  unfold group in G. congruence.
Qed.

Lemma posterior_clusters_drops_out_of_range_witness :
  exists post,
    posterior_clusters unit_prior batch_1_3_5 [0; 7; -1]%Z (Some (Z.of_nat 2))
      = Some post /\
    posterior_clusters unit_prior
      (mkArray2 1 (map fst (labelled_in_range 2 batch_1_3_5 [0; 7; -1]%Z)))
      (map snd (labelled_in_range 2 batch_1_3_5 [0; 7; -1]%Z))
      (Some (Z.of_nat 2)) = Some post.
Proof.
  apply (posterior_clusters_drops_out_of_range unit_prior batch_1_3_5
           [0; 7; -1]%Z 2 1).
  - repeat split.
  - repeat split; repeat constructor.
Defined.

Lemma filter_perm {A} (f : A -> bool) (u v : list A) :
  Permutation u v -> Permutation (filter f u) (filter f v).
Proof.
  induction 1 as [|a u v _ IH|a b u|u v w _ IH1 _ IH2]; simpl.
  - constructor.
  - destruct (f a); [now constructor | exact IH].
  - destruct (f a), (f b); try apply Permutation_refl. apply perm_swap.
  - now apply Permutation_trans with (filter f v).
Qed.

(** X6: the per-cluster posterior does not depend on the order of the
    observations: on two batches whose (observation, label) pairs are a
    permutation of each other it returns the same value. *)
Theorem posterior_clusters_permutation dist (x y : array2 R) c c' K D :
  nig_dim dist D ->
  has_shape x (length c) D -> has_shape y (length c') D ->
  Permutation (combine (rows x) c) (combine (rows y) c') ->
  exists post,
    posterior_clusters dist x c (Some (Z.of_nat K)) = Some post /\
    posterior_clusters dist y c' (Some (Z.of_nat K)) = Some post.
Proof.
  intros Hdist Hx Hy P.
  destruct (posterior_clusters_groups dist x c K D Hdist Hx)
    as (p & E & L & G).
  destruct (posterior_clusters_groups dist y c' K D Hdist Hy)
    as (q & E' & L' & G').
  exists p. split; [exact E|]. rewrite E'. f_equal.
  symmetry. apply (stacked_ext p q K L L').
  intros k Hk. specialize (G k Hk). specialize (G' k Hk).
  destruct Hx as (_ & Cx & Wx). destruct Hy as (_ & Cy & _).
  rewrite (update_on_batch_perm dist (group x c k) (group y c' k)) in G.
  - congruence.
  - apply group_wf, Wx.
  - simpl. congruence.
  - unfold group, members. simpl. apply Permutation_map, filter_perm, P.
Qed.

Lemma posterior_clusters_permutation_witness :
  exists post,
    posterior_clusters unit_prior batch_1_3_5 labels_0_2_0 (Some (Z.of_nat 3))
      = Some post /\
    posterior_clusters unit_prior (mkArray2 1 [[3]; [1]; [5]]) [2; 0; 0]%Z
      (Some (Z.of_nat 3)) = Some post.
Proof.
  apply (posterior_clusters_permutation unit_prior batch_1_3_5
           (mkArray2 1 [[3]; [1]; [5]]) labels_0_2_0 [2; 0; 0]%Z 3 1).
  - repeat split.
  - repeat split; repeat constructor.
  - repeat split; repeat constructor.
  - apply perm_swap.
Defined.

(** X10: every entry of the per-cluster posterior of a valid prior is a
    valid NormalInverseGamma, with [b] not below the prior's. *)
Theorem posterior_clusters_valid dist (x : array2 R) c K D :
  nig_dim dist D -> valid_nig dist -> has_shape x (length c) D ->
  exists post,
    posterior_clusters dist x c (Some (Z.of_nat K)) = Some post /\
    forall k, (k < K)%nat ->
      valid_nig (nig_entry post k) /\
      forall d, (d < D)%nat ->
        nth d (nig_b dist) 0 <= nth d (nig_b (nig_entry post k)) 0.
Proof.
  intros Hdist Hv Hx.
  destruct (posterior_clusters_groups dist x c K D Hdist Hx)
    as (post & E & _ & G).
  exists post. split; [exact E|]. intros k Hk.
  destruct Hx as (_ & Cx & W).
  destruct (update_keeps_valid dist (group x c k) D Hdist Hv Cx (group_wf x c k W))
    as (p & Ep & _ & V & B).
  rewrite (G k Hk) in Ep. inversion Ep. subst p. auto.
Qed.

Lemma posterior_clusters_valid_witness :
  exists post,
    posterior_clusters unit_prior batch_1_3_5 labels_0_2_0 (Some (Z.of_nat 3))
      = Some post /\
    forall k, (k < 3)%nat ->
      valid_nig (nig_entry post k) /\
      forall d, (d < 1)%nat ->
        nth d (nig_b unit_prior) 0 <= nth d (nig_b (nig_entry post k)) 0.
Proof.
  apply (posterior_clusters_valid unit_prior batch_1_3_5 labels_0_2_0 3 1).
  - repeat split.
  - repeat split; repeat constructor; lra.
  - repeat split; repeat constructor.
Defined.

Lemma indicator_sum (z : Z) (s K : nat) :
  fold_right Nat.add 0%nat
    (map (fun k => if (z =? Z.of_nat k)%Z then 1%nat else 0%nat) (seq s K)) =
  if ((Z.of_nat s <=? z)%Z && (z <? Z.of_nat (s + K))%Z)%bool then 1%nat else 0%nat.
Proof.
  revert s. induction K as [|K IH]; intros s; simpl.
  - destruct (Z.leb_spec (Z.of_nat s) z), (Z.ltb_spec z (Z.of_nat (s + 0)));
      simpl; try reflexivity; lia.
  - rewrite IH.
    destruct (Z.eqb_spec z (Z.of_nat s)),
             (Z.leb_spec (Z.of_nat (S s)) z),
             (Z.ltb_spec z (Z.of_nat (S s + K))),
             (Z.leb_spec (Z.of_nat s) z),
             (Z.ltb_spec z (Z.of_nat (s + S K))); simpl; try reflexivity; lia.
Qed.

Lemma sum_map_add (u v : nat -> nat) (l : list nat) :
  fold_right Nat.add 0%nat (map (fun k => (u k + v k)%nat) l) =
  (fold_right Nat.add 0%nat (map u l) + fold_right Nat.add 0%nat (map v l))%nat.
Proof.
  induction l as [|k l IH]; simpl; [reflexivity | rewrite IH; lia].
Qed.

(** Every element whose key lies in [[0, K)] falls in exactly one of the
    [K] classes. *)
Lemma partition_count {A} (f : A -> Z) (l : list A) (K : nat) :
  fold_right Nat.add 0%nat
    (map (fun k => length (filter (fun a => (f a =? Z.of_nat k)%Z) l)) (seq 0 K)) =
  length (filter (fun a => ((0 <=? f a)%Z && (f a <? Z.of_nat K)%Z)%bool) l).
Proof.
  induction l as [|a l IH]; simpl.
  - induction (seq 0 K); simpl; auto.
  - rewrite <- (map_ext (fun k => ((if (f a =? Z.of_nat k)%Z then 1 else 0)
                     + length (filter (fun a0 => (f a0 =? Z.of_nat k)%Z) l))%nat))
      by (intros k; destruct (f a =? Z.of_nat k)%Z; reflexivity).
    rewrite sum_map_add, IH, indicator_sum. simpl.
    destruct ((0 <=? f a)%Z && (f a <? Z.of_nat K)%Z)%bool; reflexivity.
Qed.

Lemma big_sum_INR (g : nat -> nat) (l : list nat) :
  big_sum (map (fun k => INR (g k)) l) = INR (fold_right Nat.add 0%nat (map g l)).
Proof.
  induction l as [|k l IH]; simpl; [reflexivity|].
  rewrite plus_INR, <- IH. reflexivity.
Qed.

Lemma in_range_keeps_all {A} (x : array2 A) c K :
  length (rows x) = length c -> in_range K c ->
  length (labelled_in_range K x c) = length c.
Proof.
  unfold labelled_in_range, in_range. intros L H. revert L.
  generalize (rows x). induction H as [|i c Hi _ IH]; intros [|r rs] L;
    simpl in *; try discriminate; auto.
  destruct (Z.leb_spec 0 i), (Z.ltb_spec i (Z.of_nat K)); simpl; try lia.
  f_equal. apply IH. lia.
Qed.

(** X9: in every dimension the increments [l' − l] of the clusters add up
    to the number of observations whose label lies in [[0, K)]; when
    every label is in range that is the batch size [N]. *)
Theorem posterior_clusters_counts_add_up dist (x : array2 R) c K D :
  nig_dim dist D -> has_shape x (length c) D ->
  exists post,
    posterior_clusters dist x c (Some (Z.of_nat K)) = Some post /\
    forall d, (d < D)%nat ->
      let increments :=
        map (fun k => nth d (nig_l (nig_entry post k)) 0 - nth d (nig_l dist) 0)
            (seq 0 K) in
      big_sum increments = INR (length (labelled_in_range K x c)) /\
      (in_range K c -> big_sum increments = INR (length c)).
Proof.
  intros Hdist Hx.
  destruct (posterior_clusters_groups dist x c K D Hdist Hx)
    as (post & E & _ & G).
  exists post. split; [exact E|]. intros d Hd. cbv zeta.
  destruct Hx as (Lx & Cx & W).
  assert (T : big_sum
                (map (fun k => nth d (nig_l (nig_entry post k)) 0
                               - nth d (nig_l dist) 0) (seq 0 K)) =
              INR (length (labelled_in_range K x c))).
  { rewrite (map_ext_in _ (fun k => INR (length (members k (rows x) c)))).
    - rewrite big_sum_INR. f_equal. unfold members.
      rewrite (map_ext _ (fun k => length (filter
                 (fun p : list R * Z => (snd p =? Z.of_nat k)%Z)
                 (combine (rows x) c))))
        by (intros k; apply length_map).
      apply (partition_count snd).
    - intros k Hk. apply in_seq in Hk.
      destruct (update_on_batch_spec dist (group x c k) D Hdist Cx
                  (group_wf x c k W)) as (p & Ep & _ & Kp).
      rewrite (G k) in Ep by lia. inversion Ep. subst p.
      destruct (Kp d Hd) as (-> & _). unfold closed_l. simpl. lra. }
  split; [exact T|]. intros R. rewrite T. f_equal.
  apply in_range_keeps_all; assumption.
Qed.

Lemma posterior_clusters_counts_add_up_witness :
  exists post,
    posterior_clusters unit_prior batch_1_3_5 labels_0_2_0 (Some (Z.of_nat 3))
      = Some post /\
    big_sum (map (fun k => nth 0 (nig_l (nig_entry post k)) 0
                           - nth 0 (nig_l unit_prior) 0) (seq 0 3)) = INR 3.
Proof.
  assert (Hd : nig_dim unit_prior 1) by (repeat split).
  assert (Hx : has_shape batch_1_3_5 (length labels_0_2_0) 1)
    by (repeat split; repeat constructor).
  destruct (posterior_clusters_counts_add_up unit_prior batch_1_3_5
              labels_0_2_0 3 1 Hd Hx) as (post & E & H).
  exists post. split; [exact E|].
  apply (H 0%nat (Nat.lt_0_succ 0)). repeat constructor; lia.
Defined.

(** ** Posterior of a Dirichlet: composition and counts *)

(** X7: updating a Dirichlet with counts [c1] and then with counts [c2]
    equals one update with the summed counts. *)
Theorem posterior_counts_sequential dist c1 c2 n k :
  has_shape (dirichlet_alpha dist) n k -> has_shape c1 n k -> has_shape c2 n k ->
  exists p1,
    posterior_counts dist c1 = Some p1 /\
    posterior_counts p1 c2 = posterior_counts dist (add_counts c1 c2).
Proof.
  intros Ha H1 H2.
  destruct (posterior_counts_spec dist c1 n k Ha H1) as (p1 & E1 & S1 & N1).
  destruct (posterior_counts_spec p1 c2 n k S1 H2) as (p2 & E2 & S2 & N2).
  destruct (posterior_counts_spec dist (add_counts c1 c2) n k Ha
              (add_counts_shape c1 c2 n k H1 H2)) as (p & E & S & N).
  exists p1. split; [exact E1|]. rewrite E2, E. f_equal.
  assert (Eq : dirichlet_alpha p2 = dirichlet_alpha p).
  { apply (array2_ext _ _ n k 0 S2 S). intros d j Hd Hj.
    rewrite N2, N1, N by assumption.
    unfold add_counts. simpl rows.
    rewrite (map2_rows_nth _ _ _ n k d j 0%Z 0%Z 0%Z H1 H2 Hd Hj).
    rewrite plus_IZR. lra. }
  destruct p2, p; simpl in Eq; congruence.
Qed.

Lemma posterior_counts_sequential_witness :
  exists p1,
    posterior_counts alpha_2_3 counts_2_3 = Some p1 /\
    posterior_counts p1 counts_2_3 =
      posterior_counts alpha_2_3 (add_counts counts_2_3 counts_2_3).
Proof.
  apply (posterior_counts_sequential alpha_2_3 counts_2_3 counts_2_3 2 3);
    repeat split; repeat constructor.
Defined.

(** Entry [k] of the per-cluster Dirichlet posterior adds, to every
    [alpha[d][j]], the number of observations labelled [k] with category
    [j] in dimension [d]. *)
Lemma posterior_dirichlet_clusters_groups dist (x : array2 Z) c K D num_classes :
  has_shape (dirichlet_alpha dist) D num_classes ->
  has_shape x (length c) D ->
  exists post,
    posterior_dirichlet_clusters dist x c (Some (Z.of_nat K)) = Some post /\
    length (dirichlet_alpha post) = K /\
    forall k, (k < K)%nat ->
      let alpha_k := nth k (dirichlet_alpha post) (mkArray2 0 []) in
      has_shape alpha_k D num_classes /\
      forall d j, (d < D)%nat -> (j < num_classes)%nat ->
        nth j (nth d (rows alpha_k) []) 0 =
          nth j (nth d (rows (dirichlet_alpha dist)) []) 0 +
          IZR (cat_count (group x c k) d j).
Proof.
  intros Ha (Lx & Cx & W).
  assert (Enc : ncols (dirichlet_alpha dist) = num_classes) by apply Ha.
  destruct (segment_sum_spec (zero_counts D num_classes) add_counts
              (map (one_hot_row num_classes) (rows x)) c K)
    as (counts & Ec & Lc & Hc); [now rewrite length_map|].
  assert (Hg : forall k, (k < K)%nat ->
            nth k counts (zero_counts D num_classes)
              = group_counts num_classes (group x c k)).
  { intros k Hlt. rewrite Hc by assumption. rewrite <- Cx.
    apply one_hot_fold_counts, W. }
  assert (Sg : forall k, has_shape (group_counts num_classes (group x c k))
                 D num_classes).
  { intros k. rewrite <- Cx.
    apply (group_counts_shape num_classes (group x c k)). }
  destruct (traverse_spec (posterior_counts dist) counts) as (rs & Et & Lrs & Hn).
  { intros u Hu.
    destruct (In_nth _ _ (zero_counts D num_classes) Hu) as (k & Hlt & <-).
    rewrite Lc in Hlt. rewrite Hg by assumption.
    destruct (posterior_counts_spec dist _ D num_classes Ha (Sg k))
      as (p & Ep & _). now exists p. }
  exists (mkDirichlet (map dirichlet_alpha rs)). split.
  { unfold posterior_dirichlet_clusters.
    rewrite num_segments_given, Enc, Cx.
    rewrite bind_some, Ec, bind_some, Et. reflexivity. }
  split; [simpl; rewrite length_map; congruence|].
  intros k Hlt. simpl.
  rewrite (nth_map_in _ _ _ (mkDirichlet (mkArray2 0 []))) by congruence.
  specialize (Hn k (zero_counts D num_classes) (mkDirichlet (mkArray2 0 []))).
  rewrite Hg in Hn by assumption.
  destruct (posterior_counts_spec dist _ D num_classes Ha (Sg k))
    as (p & Ep & Sp & Np).
  rewrite Hn in Ep by congruence. inversion Ep as [Ep']. rewrite Ep'.
  split; [exact Sp|]. intros d j Hd Hj. rewrite Np by assumption.
  rewrite group_counts_nth; [reflexivity | simpl; lia | assumption].
Qed.

(** X11: in cluster [k] and dimension [d], the increments
    [alpha' − alpha] over the categories add up to the number of
    observations labelled [k] whose category lies in
    [[0, num_classes)]: a category outside that range is counted
    nowhere. *)
Theorem posterior_dirichlet_counts_add_up dist (x : array2 Z) c K D num_classes :
  has_shape (dirichlet_alpha dist) D num_classes ->
  has_shape x (length c) D ->
  exists post,
    posterior_dirichlet_clusters dist x c (Some (Z.of_nat K)) = Some post /\
    forall k d, (k < K)%nat -> (d < D)%nat ->
      let alpha_k := nth k (dirichlet_alpha post) (mkArray2 0 []) in
      big_sum (map (fun j => nth j (nth d (rows alpha_k) []) 0
                             - nth j (nth d (rows (dirichlet_alpha dist)) []) 0)
                   (seq 0 num_classes))
      = INR (observed_in_range num_classes (group x c k) d).
Proof.
  intros Ha Hx.
  destruct (posterior_dirichlet_clusters_groups dist x c K D num_classes Ha Hx)
    as (post & E & _ & G).
  exists post. split; [exact E|]. intros k d Hk Hd. cbv zeta.
  destruct (G k Hk) as (_ & Hn).
  rewrite (map_ext_in _
             (fun j => INR (length (filter
                (fun row => (nth d row (-1) =? Z.of_nat j)%Z)
                (rows (group x c k)))))).
  - rewrite big_sum_INR. f_equal.
    apply (partition_count (fun row => nth d row (-1)%Z)).
  - intros j Hj. apply in_seq in Hj. rewrite Hn by lia.
    unfold cat_count. rewrite <- INR_IZR_INZ. lra.
Qed.

Lemma posterior_dirichlet_counts_add_up_witness :
  exists post,
    posterior_dirichlet_clusters alpha_2_3
      (mkArray2 2 [[0; 1]; [9; 1]; [2; -4]]%Z) labels_0_2_0
      (Some (Z.of_nat 3)) = Some post /\
    big_sum (map (fun j => nth j (nth 1 (rows (nth 0 (dirichlet_alpha post)
                                                  (mkArray2 0 []))) []) 0
                           - nth j (nth 1 (rows (dirichlet_alpha alpha_2_3)) []) 0)
                 (seq 0 3)) = INR 1.
Proof.
  assert (Ha : has_shape (dirichlet_alpha alpha_2_3) 2 3)
    by (repeat split; repeat constructor).
  assert (Hx : has_shape (mkArray2 2 [[0; 1]; [9; 1]; [2; -4]]%Z)
                 (length labels_0_2_0) 2)
    by (repeat split; repeat constructor).
  destruct (posterior_dirichlet_counts_add_up alpha_2_3 _ labels_0_2_0 3 2 3
              Ha Hx) as (post & E & H).
  exists post. split; [exact E|].
  apply (H 0%nat 1%nat); lia.
Defined.

(** ** Posterior of a MixedConjugate without labels *)


(** ** Log-density under one cluster of a batched container *)

Lemma index_beyond n c :
  (0 < n)%nat -> (Z.of_nat n <= c)%Z ->
  clamp_index n (normalize_index n c) = (n - 1)%nat.
Proof.
  intros Hn Hc. unfold clamp_index, normalize_index.
  destruct (Z.ltb_spec c 0); lia.
Qed.

(** X13: on a batched Normal with [K > 0] clusters, [logpdf(dist, x, c)]
    is the density under the parameters of cluster [c] for [c] in
    [[0, K)]; for [c >= K] nothing is raised and the last cluster is
    used. *)
Theorem logpdf_F_Normal_cluster (dist : Normal (list vec)) (x : vec) (c : Z) K :
  length (normal_mu dist) = K -> length (normal_std dist) = K -> (0 < K)%nat ->
  ((0 <= c < Z.of_nat K)%Z ->
   logpdf_F (FNormal dist) (DFloat x) c =
     logpdf_Normal (mkNormal (nth (Z.to_nat c) (normal_mu dist) [])
                             (nth (Z.to_nat c) (normal_std dist) [])) x) /\
  ((Z.of_nat K <= c)%Z ->
   logpdf_F (FNormal dist) (DFloat x) c =
     logpdf_Normal (mkNormal (nth (K - 1) (normal_mu dist) [])
                             (nth (K - 1) (normal_std dist) [])) x).
Proof.
  intros Lm Ls HK.
  assert (Nm : normal_mu dist <> []) by (intros E; rewrite E in Lm; simpl in Lm; lia).
  assert (Ns : normal_std dist <> []) by (intros E; rewrite E in Ls; simpl in Ls; lia).
  assert (G : logpdf_F (FNormal dist) (DFloat x) c =
              logpdf_Normal
                (mkNormal (nth (clamp_index K (normalize_index K c)) (normal_mu dist) [])
                          (nth (clamp_index K (normalize_index K c)) (normal_std dist) []))
                x).
  { unfold logpdf_F, Normal_getitem.
    rewrite (getitem_clamped _ c [] Nm), (getitem_clamped _ c [] Ns), Lm, Ls.
    reflexivity. }
  split; intros Hc; rewrite G.
  - now rewrite index_in_range.
  - now rewrite index_beyond.
Qed.

Lemma logpdf_F_Normal_cluster_witness :
  logpdf_F (FNormal (mkNormal [[0]; [1]] [[1]; [2]])) (DFloat [3]) 1 =
    logpdf_Normal (mkNormal [1] [2]) [3] /\
  logpdf_F (FNormal (mkNormal [[0]; [1]] [[1]; [2]])) (DFloat [3]) 5 =
    logpdf_Normal (mkNormal [1] [2]) [3].
Proof.
  assert (HK : (0 < 2)%nat) by lia.
  split.
  - apply (proj1 (logpdf_F_Normal_cluster (mkNormal [[0]; [1]] [[1]; [2]])
                    [3] 1 2 eq_refl eq_refl HK)). simpl. lia.
  - apply (proj2 (logpdf_F_Normal_cluster (mkNormal [[0]; [1]] [[1]; [2]])
                    [3] 5 2 eq_refl eq_refl HK)). simpl. lia.
Defined.

(** X14: on a batched Mixed with [K > 0] clusters and [c] in [[0, K)],
    [logpdf(dist, x, c)] adds the Normal density under cluster [c] to
    the Categorical density under cluster 0, whatever [c] is. *)
Theorem logpdf_F_Mixed_cluster (dist : Mixed (list vec) (list (array2 R)))
    (x : vec * list Z) (c : Z) K cat0 rest :
  length (normal_mu (mixed_normal dist)) = K ->
  length (normal_std (mixed_normal dist)) = K ->
  cat_logprobs (mixed_categorical dist) = cat0 :: rest ->
  (0 <= c < Z.of_nat K)%Z ->
  logpdf_F (FMixed dist) (DPair x) c =
    logpdf_Mixed
      (mkMixed (mkNormal (nth (Z.to_nat c) (normal_mu (mixed_normal dist)) [])
                         (nth (Z.to_nat c) (normal_std (mixed_normal dist)) []))
               (mkCategorical cat0)) x.
Proof.
  intros Lm Ls Ec Hc. unfold logpdf_F, Mixed_getitem, Normal_getitem,
    Categorical_getitem.
  rewrite (getitem_in_range _ c []) by lia.
  rewrite (getitem_in_range _ c []) by lia.
  rewrite Ec, (getitem_in_range (cat0 :: rest) 0 cat0)
    by (simpl length; lia).
  reflexivity.
Qed.

Lemma logpdf_F_Mixed_cluster_witness :
  logpdf_F
    (FMixed (mkMixed (mkNormal [[0]; [1]] [[1]; [2]]) two_clusters))
    (DPair ([3], [0%Z])) 1 =
  logpdf_Mixed
    (mkMixed (mkNormal [1] [2]) (mkCategorical (mkArray2 2 [[-1; -2]])))
    ([3], [0%Z]).
Proof.
  apply (logpdf_F_Mixed_cluster
           (mkMixed (mkNormal [[0]; [1]] [[1]; [2]]) two_clusters)
           ([3], [0%Z]) 1 2 (mkArray2 2 [[-1; -2]]) [mkArray2 2 [[-3; -4]]]);
    try reflexivity.
  simpl. lia.
Defined.

(** ** Stick-breaking density: the weights that matter, and the slice *)

Lemma stick_fraction_firstn (pi : vec) k i :
  (i < k)%nat -> stick_fraction (firstn k pi) i = stick_fraction pi i.
Proof.
  intros Hi. destruct i as [|j]; simpl.
  - rewrite nth_firstn. destruct (Nat.ltb_spec 0 k); [reflexivity | lia].
  - rewrite !nth_firstn.
    destruct (Nat.ltb_spec (S j) k), (Nat.ltb_spec j k); try lia. reflexivity.
Qed.

(** X15: for [1 <= K <= len(pi)] the density depends on the first [K]
    weights only: the weights after them can be dropped. *)
Theorem logpdf_GEM_prefix (beta_logpdf : R -> R -> R -> R) dist pi K :
  (1 <= K <= Z.of_nat (length pi))%Z ->
  logpdf_GEM beta_logpdf dist pi K =
    logpdf_GEM beta_logpdf dist (firstn (Z.to_nat K) pi) K.
Proof.
  intros HK.
  assert (Lf : length (firstn (Z.to_nat K) pi) = Z.to_nat K)
    by (rewrite length_firstn; lia).
  rewrite (logpdf_GEM_terms beta_logpdf dist pi K)
    by (intros E; rewrite E in HK; simpl in HK; lia).
  rewrite (logpdf_GEM_terms beta_logpdf dist (firstn (Z.to_nat K) pi) K)
    by (intros E; rewrite E in Lf; simpl in Lf; lia).
  rewrite !slice_to_firstn by lia. rewrite Lf.
  rewrite !firstn_map, !firstn_seq_prefix by lia.
  do 2 f_equal. apply map_ext_in. intros i Hi. apply in_seq in Hi.
  now rewrite stick_fraction_firstn by lia.
Qed.

Lemma logpdf_GEM_prefix_witness :
  logpdf_GEM beta_log_kernel gem_1_0 [1 / 2; 1 / 4; 1 / 8] 2 =
    logpdf_GEM beta_log_kernel gem_1_0 (firstn (Z.to_nat 2) [1 / 2; 1 / 4; 1 / 8]) 2.
Proof.
  apply (logpdf_GEM_prefix beta_log_kernel gem_1_0 [1 / 2; 1 / 4; 1 / 8] 2).
  simpl. lia.
Defined.

(** X16: the count [K] is only a slice bound.  On non-empty weights a [K]
    above [len(pi)] raises nothing and gives the value for [K = len(pi)];
    [K = 0] gives 0; a negative [K] drops the last [-K] terms. *)
Theorem logpdf_GEM_slice (beta_logpdf : R -> R -> R -> R) dist pi K :
  pi <> [] ->
  ((Z.of_nat (length pi) <= K)%Z ->
   logpdf_GEM beta_logpdf dist pi K =
     logpdf_GEM beta_logpdf dist pi (Z.of_nat (length pi))) /\
  logpdf_GEM beta_logpdf dist pi 0 = Some 0 /\
  ((K < 0)%Z ->
   logpdf_GEM beta_logpdf dist pi K =
     logpdf_GEM beta_logpdf dist pi (Z.max 0 (Z.of_nat (length pi) + K))).
Proof.
  intros NE. rewrite !logpdf_GEM_terms by assumption.
  set (terms := map _ (seq 0 (length pi))).
  assert (Lt : length terms = length pi)
    by (unfold terms; now rewrite length_map, length_seq).
  split; [|split].
  - intros HK. rewrite !slice_to_firstn by lia.
    rewrite !firstn_all2 by lia. reflexivity.
  - reflexivity.
  - intros HK. unfold slice_to at 1.
    destruct (Z.ltb_spec K 0); [|lia].
    rewrite slice_to_firstn by lia. rewrite Lt.
    do 3 f_equal. lia.
Qed.

Lemma logpdf_GEM_slice_witness :
  logpdf_GEM beta_log_kernel gem_1_0 [1 / 2; 1 / 4] 7 =
    logpdf_GEM beta_log_kernel gem_1_0 [1 / 2; 1 / 4] (Z.of_nat 2) /\
  logpdf_GEM beta_log_kernel gem_1_0 [1 / 2; 1 / 4] (-1) =
    logpdf_GEM beta_log_kernel gem_1_0 [1 / 2; 1 / 4] (Z.max 0 (Z.of_nat 2 + -1)).
Proof.
  assert (NE : [1 / 2; 1 / 4] <> []) by discriminate.
  destruct (logpdf_GEM_slice beta_log_kernel gem_1_0 [1 / 2; 1 / 4] 7 NE)
    as (A & _ & _).
  destruct (logpdf_GEM_slice beta_log_kernel gem_1_0 [1 / 2; 1 / 4] (-1) NE)
    as (_ & _ & B).
  split; [apply A; simpl; lia | apply B; lia].
Defined.

(** ** Sampling: what the drawn parameters are *)

Lemma ew3_same_length {A B C E} (f : A -> B -> C -> E) u v w D da db dc de :
  length u = D -> length v = D -> length w = D ->
  exists r,
    ew3 f u v w = Some r /\ length r = D /\
    forall d, (d < D)%nat ->
      nth d r de = f (nth d u da) (nth d v db) (nth d w dc).
Proof.
  intros Lu Lv Lw. unfold ew3.
  rewrite ew2_same_length, bind_some by congruence.
  assert (Luv : length (map2 pair u v) = D)
    by (rewrite length_map2; congruence).
  rewrite ew2_same_length by congruence.
  eexists. split; [reflexivity|]. split; [rewrite length_map2; congruence|].
  intros d Hd.
  rewrite (nth_map2 _ _ _ _ (da, db) dc de) by congruence.
  rewrite (nth_map2 _ _ _ _ da db (da, db)) by congruence.
  reflexivity.
Qed.

Lemma exp_half_square t : / (exp (- t / 2) ^ 2) = exp t.
Proof.
  replace (exp (- t / 2) ^ 2) with (exp (- t))
    by (simpl; rewrite Rmult_1_r, <- exp_plus; f_equal; lra).
  rewrite exp_Ropp. apply Rinv_inv.
Qed.

Lemma sqrt_as_exp l : 0 < l -> sqrt l = exp (ln l / 2).
Proof.
  intros Hl. apply sqrt_lem_1; [lra | left; apply exp_pos |].
  rewrite <- exp_plus. replace (ln l / 2 + ln l / 2) with (ln l) by lra.
  now apply exp_ln.
Qed.

Section SampledParameters.

Context {Key : Type} `{RandomSource Key}.

(** X17: on a prior of dimension [D] with [b > 0], the Normal that
    [sample] returns has [std > 0] in every dimension, and its precision
    [1/std²] is the exponential of the log-gamma draw divided by [b]. *)
Theorem sample_nig_precision (key : Key) dist D :
  nig_dim dist D -> positive (nig_b dist) ->
  exists n,
    value (sample_NormalInverseGamma key dist) = Some n /\
    positive (normal_std n) /\
    forall d, (d < D)%nat ->
      / (nth d (normal_std n) 0 ^ 2) =
        exp (nth d (loggamma key (nig_a dist)) 0) / nth d (nig_b dist) 0.
Proof.
  intros Hd Pb. pose proof (sample_nig_run key dist D Hd) as E. simpl in E.
  destruct Hd as (Hm & Hl & Ha & Hb).
  assert (Lg : length (loggamma key (nig_a dist)) = D)
    by (now rewrite loggamma_shape).
  eexists. split; [rewrite E; reflexivity|]. simpl normal_std. split.
  - apply Forall_forall. intros t Ht. apply in_map_iff in Ht.
    destruct Ht as (u & <- & _). apply exp_pos.
  - intros d Hlt. nth_in. rewrite exp_half_square.
    unfold Rminus. rewrite exp_plus, exp_Ropp, exp_ln; [reflexivity|].
    apply positive_nth; [exact Pb | lia].
Qed.

(** X18: scoring the sampled Normal under its own prior ([l > 0])
    evaluates the Gamma log-density at the drawn precision
    [exp(log λ)] and the Normal log-density of [mu] at location [m]
    with the scale [exp(log σ / 2)] that drew [mu]. *)
Theorem sample_then_logpdf (gamma_logpdf norm_logpdf : R -> R -> R -> R)
    (key : Key) dist D :
  nig_dim dist D -> positive (nig_l dist) ->
  exists n,
    value (sample_NormalInverseGamma key dist) = Some n /\
    logpdf_NormalInverseGamma gamma_logpdf norm_logpdf dist n =
      Some (big_sum
              (map (fun d =>
                      let log_lambda :=
                        nth d (loggamma key (nig_a dist)) 0
                        - ln (nth d (nig_b dist) 0) in
                      let log_sigma := - ln (nth d (nig_l dist) 0) - log_lambda in
                      norm_logpdf (nth d (normal_mu n) 0) (nth d (nig_m dist) 0)
                        (exp (log_sigma / 2))
                      + gamma_logpdf (exp log_lambda) (nth d (nig_a dist) 0)
                          (1 / nth d (nig_b dist) 0))
                   (seq 0 D))).
Proof.
  intros Hd Pl. pose proof (sample_nig_run key dist D Hd) as E. simpl in E.
  destruct Hd as (Hm & Hl & Ha & Hb).
  assert (Lg : length (loggamma key (nig_a dist)) = D)
    by (now rewrite loggamma_shape).
  assert (Lz : length (normal (snd (split key)) D) = D) by apply normal_shape.
  eexists. split; [rewrite E; reflexivity|].
  unfold logpdf_NormalInverseGamma. simpl normal_std. simpl normal_mu.
  set (log_lambda := map2 Rminus (loggamma key (nig_a dist)) (map ln (nig_b dist))).
  set (mu := map2 Rplus (nig_m dist) _).
  assert (Lll : length log_lambda = D) by (unfold log_lambda; len).
  assert (Lmu : length mu = D) by (unfold mu; len).
  destruct (ew3_same_length gamma_logpdf
              (map (fun s => / (s ^ 2)) (map exp (map (fun t => - t / 2) log_lambda)))
              (nig_a dist) (map (fun b => 1 / b) (nig_b dist)) D 0 0 0 0)
    as (sl & Es & Ls & Ns); [len | len | len |].
  rewrite Es, bind_some. unfold div.
  rewrite ew2_same_length, bind_some by len.
  destruct (ew3_same_length norm_logpdf mu (nig_m dist)
              (map2 Rdiv (map exp (map (fun t => - t / 2) log_lambda))
                         (map sqrt (nig_l dist))) D 0 0 0 0)
    as (ml & Em & Lml & Nm); [len | len | len |].
  rewrite Em, bind_some. unfold add.
  rewrite ew2_same_length, bind_some by congruence.
  simpl ret. rewrite sum_big_sum. do 2 f_equal.
  apply map_seq_ext; [rewrite length_map2; congruence|].
  intros d Hlt. rewrite (nth_map2 _ _ _ _ 0 0 0) by congruence.
  rewrite Nm, Ns by assumption. cbv zeta.
  assert (Pd : 0 < nth d (nig_l dist) 0) by (apply positive_nth; [exact Pl | lia]).
  f_equal; f_equal.
  - nth_in. replace (nth d log_lambda 0)
      with (nth d (loggamma key (nig_a dist)) 0 - ln (nth d (nig_b dist) 0))
      by (unfold log_lambda; nth_in; reflexivity).
    rewrite sqrt_as_exp by assumption.
    unfold Rdiv at 1. rewrite <- exp_Ropp, <- exp_plus. f_equal. lra.
  - nth_in. rewrite exp_half_square. f_equal.
    unfold log_lambda. nth_in. reflexivity.
  - nth_in. reflexivity.
Qed.

(** X20: [sample] on a MixedConjugate is the NormalInverseGamma sample on
    [keys[0]] paired with the Dirichlet sample on [keys[1]]; it makes
    three primitive draws, on [keys[0]], on the second half of the split of
    [keys[0]], and on [keys[1]]. *)
Theorem sample_MixedConjugate_components (key : Key) dist D :
  nig_dim (mc_nig dist) D ->
  exists n c,
    value (sample_NormalInverseGamma (fst (split key)) (mc_nig dist)) = Some n /\
    value (sample_Dirichlet (snd (split key)) (mc_dirichlet dist)) = Some c /\
    value (sample_MixedConjugate key dist) = Some (mkMixed n c) /\
    draws (sample_MixedConjugate key dist) =
      [(LogGammaDraw, fst (split key));
       (NormalDraw, snd (split (fst (split key))));
       (DirichletDraw, snd (split key))].
Proof.
  intros Hd. unfold sample_MixedConjugate.
  pose proof (sample_nig_run (fst (split key)) (mc_nig dist) D Hd) as E.
  simpl in E. rewrite E. eexists. eexists.
  split; [reflexivity|]. split; [reflexivity|]. split; reflexivity.
Qed.

End SampledParameters.

Lemma sample_nig_precision_witness :
  exists n,
    value (sample_NormalInverseGamma (Seed 0) prior_l2) = Some n /\
    positive (normal_std n) /\
    forall d, (d < 1)%nat ->
      / (nth d (normal_std n) 0 ^ 2) =
        exp (nth d (loggamma (Seed 0) (nig_a prior_l2)) 0) / nth d (nig_b prior_l2) 0.
Proof.
  apply (sample_nig_precision (Seed 0) prior_l2 1).
  - repeat split.
  - repeat constructor. lra.
Defined.

Lemma sample_then_logpdf_witness :
  exists n,
    value (sample_NormalInverseGamma (Seed 0) prior_l2) = Some n /\
    logpdf_NormalInverseGamma beta_log_kernel beta_log_kernel prior_l2 n =
      Some (big_sum
              [beta_log_kernel (nth 0 (normal_mu n) 0) 0
                 (exp ((- ln 2 - (0 - ln 1)) / 2))
               + beta_log_kernel (exp (0 - ln 1)) 1 (1 / 1)]).
Proof.
  assert (Hd : nig_dim prior_l2 1) by (repeat split).
  assert (Pl : positive (nig_l prior_l2)) by (repeat constructor; lra).
  destruct (sample_then_logpdf beta_log_kernel beta_log_kernel (Seed 0)
              prior_l2 1 Hd Pl) as (n & E & L).
  exists n. split; [exact E | exact L].
Defined.

Lemma sample_MixedConjugate_components_witness :
  exists n c,
    value (sample_NormalInverseGamma (fst (split (Seed 0))) unit_prior) = Some n /\
    value (sample_Dirichlet (snd (split (Seed 0))) alpha_2_3) = Some c /\
    value (sample_MixedConjugate (Seed 0) (mkMixedConjugate unit_prior alpha_2_3))
      = Some (mkMixed n c) /\
    draws (sample_MixedConjugate (Seed 0) (mkMixedConjugate unit_prior alpha_2_3)) =
      [(LogGammaDraw, Half0 (Seed 0));
       (NormalDraw, Half1 (Half0 (Seed 0)));
       (DirichletDraw, Half1 (Seed 0))].
Proof.
  assert (Hd : nig_dim (mc_nig (mkMixedConjugate unit_prior alpha_2_3)) 1)
    by (repeat split).
  destruct (sample_MixedConjugate_components (Seed 0)
              (mkMixedConjugate unit_prior alpha_2_3) 1 Hd)
    as (n & c & En & Ec & Ev & Ed).
  exists n, c. split; [exact En|]. split; [exact Ec|].
  split; [exact Ev | exact Ed].
Defined.

(** X19: [sample] on a Dirichlet makes one primitive draw, on the key it
    was given, and stores the logarithms of the drawn probabilities:
    when the draw is positive, exponentiating the stored [logprobs] gives
    the draw back, in the same shape. *)
Theorem sample_Dirichlet_logprobs {Key : Type} `{RandomSource Key}
    (key : Key) (dist : Dirichlet (array2 R)) :
  let probs := dirichlet key (dirichlet_alpha dist) in
  (forall row p, In row (rows probs) -> In p row -> 0 < p) ->
  exists c,
    value (sample_Dirichlet key dist) = Some c /\
    draws (sample_Dirichlet key dist) = [(DirichletDraw, key)] /\
    ncols (cat_logprobs c) = ncols probs /\
    map (map exp) (rows (cat_logprobs c)) = rows probs.
Proof.
  intros probs Pos. eexists. split; [reflexivity|]. split; [reflexivity|].
  split; [reflexivity|]. simpl. fold probs. rewrite map_map.
  rewrite <- (map_id (rows probs)) at 2. apply map_ext_in. intros row Hr.
  rewrite map_map. rewrite <- (map_id row) at 2. apply map_ext_in.
  intros p Hp. apply exp_ln. now apply (Pos row).
Qed.

Lemma sample_Dirichlet_logprobs_witness :
  exists c,
    value (sample_Dirichlet (Seed 0) alpha_2_3) = Some c /\
    draws (sample_Dirichlet (Seed 0) alpha_2_3) = [(DirichletDraw, Seed 0)] /\
    ncols (cat_logprobs c) = ncols (dirichlet (Seed 0) (dirichlet_alpha alpha_2_3)) /\
    map (map exp) (rows (cat_logprobs c)) =
      rows (dirichlet (Seed 0) (dirichlet_alpha alpha_2_3)).
Proof.
  apply (sample_Dirichlet_logprobs (Seed 0) alpha_2_3).
  assert (P : 0 < / INR 3) by (apply Rinv_0_lt_compat; simpl; lra).
  intros row p Hr Hp. simpl in Hr.
  destruct Hr as [<-|[<-|[]]]; simpl in Hp;
    destruct Hp as [<-|[<-|[<-|[]]]]; exact P.
Defined.
